(** * GCE rate limiter (k8s.io/ingress-gce/pkg/ratelimit)

    A shallow embedding of [ratelimit.go]: the parser of rate limiting
    specs ([NewGCERateLimiter], [constructRateLimitKey],
    [constructRateLimitImpl]), the limiter lookup ([rateLimitImpl]) and the
    admission call ([Accept]), together with the properties of the
    specification that concern them.

    Go values are modelled as follows.
    - [string] is a Go string (a sequence of bytes).
    - A pair [(v, err)] with [err : option _] is a Go result [(v, error)];
      [None] is the [nil] error.
    - float64 and float32 values are [spec_float]s (IEEE 754 values without
      NaN payload).
    - A [*GCERateLimiter] is an [option GCERateLimiter]; [None] is [nil].
    - A [flowcontrol.RateLimiter] interface value is an [option loc]: [nil]
      or the address of a token bucket limiter in the heap of limiters.
    - A Go map is a [gmap].
    - A function that allocates limiters or may panic is a computation on
      the heap of limiters ([M]).
    - A call of [Accept] is a transition system: the steps of the goroutine
      it starts, of the [select] of the caller, of the context and of the
      buckets. *)

From Stdlib Require Import ZArith Ascii String List Bool Lia.
From Stdlib Require Import Floats.SpecFloat.
From stdpp Require Import base option list gmap strings sorting.

Set Warnings "-clear-no-such-hyp".

Local Open Scope string_scope.
Local Open Scope Z_scope.
Local Open Scope list_scope.

(** ** Package [strings] *)

Module strings.

(** [strings.Split(s, sep)] for a one byte separator [sep]: the pieces of
    [s] between the occurrences of [sep]. The result is never empty:
    [n] occurrences of [sep] give [n + 1] pieces. *)
Fixpoint Split (s : string) (sep : ascii) : list string :=
  match s with
  | EmptyString => [EmptyString]
  | String c rest =>
      if Ascii.eqb c sep then EmptyString :: Split rest sep
      else match Split rest sep with
           | piece :: pieces => String c piece :: pieces
           | [] => [String c EmptyString]
           end
  end.

End strings.

(** ** Package [strconv] *)

Module strconv.

(** The [Err] field of a [*strconv.NumError]. *)
Inductive NumError : Type :=
| ErrSyntax
| ErrRange.

Definition byte_of (c : ascii) : Z := Z.of_N (N_of_ascii c).

Definition isDigit (c : ascii) : bool :=
  (byte_of "0" <=? byte_of c) && (byte_of c <=? byte_of "9").

Definition digitVal (c : ascii) : Z := byte_of c - byte_of "0".

(** *** [Atoi] *)

(** The digits loop of [ParseUint] in base 10: [None] on a byte that is
    not a digit. The value is kept exact; the caller clamps it. *)
Fixpoint parseDigits (s : string) (acc : Z) : option Z :=
  match s with
  | EmptyString => Some acc
  | String c rest =>
      if isDigit c then parseDigits rest (acc * 10 + digitVal c) else None
  end.

Definition cutoff : Z := 2 ^ 63.

(** [strconv.Atoi(s)], that is [ParseInt(s, 10, 0)] with a 64 bit [int]:
    an optional sign and one or more decimal digits. A value out of the
    range of [int] is clamped and reported with [ErrRange]. *)
Definition Atoi (s : string) : Z * option NumError :=
  match s with
  | EmptyString => (0, Some ErrSyntax)
  | String c rest =>
      let neg := Ascii.eqb c "-" in
      let body := if Ascii.eqb c "+" || Ascii.eqb c "-" then rest else s in
      match body with
      | EmptyString => (0, Some ErrSyntax)
      | _ =>
          match parseDigits body 0 with
          | None => (0, Some ErrSyntax)
          | Some un =>
              if negb neg && (cutoff <=? un) then (cutoff - 1, Some ErrRange)
              else if neg && (cutoff <? un) then (- cutoff, Some ErrRange)
              else (if neg then - un else un, None)
          end
      end
  end.

(** *** [ParseFloat] *)

Definition lower (c : ascii) : ascii :=
  if (byte_of "A" <=? byte_of c) && (byte_of c <=? byte_of "Z")
  then ascii_of_N (N_of_ascii c + 32) else c.

Fixpoint equalFold (s t : string) : bool :=
  match s, t with
  | EmptyString, EmptyString => true
  | String a s', String b t' => Ascii.eqb (lower a) (lower b) && equalFold s' t'
  | _, _ => false
  end.

(** [special]: the spellings of the infinities and of NaN, in any case. *)
Definition special (s : string) : option spec_float :=
  if equalFold s "nan" then Some S754_nan
  else if equalFold s "inf" || equalFold s "infinity"
          || equalFold s "+inf" || equalFold s "+infinity"
  then Some (S754_infinity false)
  else if equalFold s "-inf" || equalFold s "-infinity"
  then Some (S754_infinity true)
  else None.

(** The mantissa loop of [readFloat]: digits with at most one point.
    Returns the digits read as an integer, the number of digits after the
    point, whether a digit was seen, and the rest of the input. A second
    point is a syntax error ([None]). *)
Fixpoint readMantissa (s : string) (sawdot sawdigits : bool) (mant frac : Z)
  : option (Z * Z * bool * string) :=
  match s with
  | EmptyString => Some (mant, frac, sawdigits, s)
  | String c rest =>
      if Ascii.eqb c "." then
        if sawdot then None else readMantissa rest true sawdigits mant frac
      else if isDigit c then
        readMantissa rest sawdot true (mant * 10 + digitVal c)
                     (if sawdot then frac + 1 else frac)
      else Some (mant, frac, sawdigits, s)
  end.

(** The exponent loop of [readFloat]: digits only, to the end of the
    input; the exponent stops growing once it has reached 10000. *)
Fixpoint readExponent (s : string) (e : Z) : option Z :=
  match s with
  | EmptyString => Some e
  | String c rest =>
      if isDigit c
      then readExponent rest (if e <? 10000 then e * 10 + digitVal c else e)
      else None
  end.

(** [readFloat]: sign, mantissa and optional exponent of a decimal
    floating point literal. The result [(neg, m, e)] stands for the number
    [(-1)^neg * m * 10^e]. *)
Definition readFloat (s : string) : option (bool * Z * Z) :=
  match s with
  | EmptyString => None
  | String c rest =>
      let neg := Ascii.eqb c "-" in
      let body := if Ascii.eqb c "+" || Ascii.eqb c "-" then rest else s in
      match readMantissa body false false 0 0 with
      | None => None
      | Some (mant, frac, sawdigits, tail) =>
          if negb sawdigits then None
          else match tail with
               | EmptyString => Some (neg, mant, - frac)
               | String x tail' =>
                   if Ascii.eqb x "e" || Ascii.eqb x "E" then
                     match tail' with
                     | EmptyString => None
                     | String sg digits =>
                         let esign := if Ascii.eqb sg "-" then -1 else 1 in
                         let digits' :=
                           if Ascii.eqb sg "+" || Ascii.eqb sg "-"
                           then digits else tail' in
                         match digits' with
                         | EmptyString => None
                         | _ =>
                             match readExponent digits' 0 with
                             | None => None
                             | Some e => Some (neg, mant, e * esign - frac)
                             end
                         end
                     end
                   else None
               end
      end
  end.

(** The float of precision [prec] and exponent bound [emax] nearest to
    [(-1)^neg * m * 10^e], ties to even. *)
Definition roundDecimal (prec emax : Z) (neg : bool) (m e : Z) : spec_float :=
  if m <=? 0 then S754_zero neg
  else if 0 <=? e then
    binary_normalize prec emax (cond_Zopp neg (m * 10 ^ e)) 0 neg
  else
    let '(q, e', l) := SFdiv_core_binary prec emax m 0 (10 ^ (- e)) 0 in
    binary_round_aux prec emax neg q e' l.

(** [strconv.ParseFloat(s, bitSize)] on decimal literals and the spellings
    of the special values (the hexadecimal literals and the digit
    separators of later Go releases are left out). The float64 result has
    the value of the nearest float of the requested size; a value that
    rounds to an infinity is reported with [ErrRange], a malformed literal
    gives [0] and [ErrSyntax]. NaN and the infinities parse without
    error. *)
Definition ParseFloat (s : string) (bitSize : Z) : spec_float * option NumError :=
  match special s with
  | Some v => (v, None)
  | None =>
      match readFloat s with
      | None => (S754_zero false, Some ErrSyntax)
      | Some (neg, m, e) =>
          let f := if bitSize =? 32 then roundDecimal 24 128 neg m e
                   else roundDecimal 53 1024 neg m e in
          match f with
          | S754_infinity _ => (f, Some ErrRange)
          | _ => (f, None)
          end
      end
  end.

End strconv.

(** ** Package [context] *)

Module context.

(** The two errors a [Context] reports once it is done. *)
Inductive Err : Type :=
| Canceled
| DeadlineExceeded.

End context.

(** ** Package [meta] and package [cloud] *)

Module meta.
Definition Version : Type := string.
End meta.

Module cloud.

Record RateLimitKey : Type := {
  ProjectID : string;
  Operation : string;
  Version : meta.Version;
  Service : string
}.

#[global] Instance RateLimitKey_eq_dec : EqDecision RateLimitKey.
Proof. solve_decision. Defined.

#[global] Instance RateLimitKey_countable : Countable RateLimitKey.
Proof.
  refine (inj_countable'
            (λ k, (ProjectID k, Operation k, Version k, Service k))
            (λ t, let '(p, o, v, s) := t in
                  {| ProjectID := p; Operation := o; Version := v; Service := s |})
            _).
  by intros [].
Defined.

End cloud.

(** ** Package [flowcontrol] *)

Module flowcontrol.

(** A token bucket limiter, as far as this package determines it: the
    two arguments it was constructed with. *)
Record tokenBucketRateLimiter : Type := {
  qps : spec_float;
  burst : Z
}.

(** Limiters are heap objects. An address is the index of the limiter in
    allocation order. *)
Abbreviation loc := nat.
Abbreviation heap := (list tokenBucketRateLimiter).

(** The interface value: [None] is [nil]. *)
Abbreviation RateLimiter := (option loc).

End flowcontrol.

(** ** Computations on the heap of limiters *)

(** A Go function that may allocate limiters and may panic: from the heap
    to the value returned and the heap after, or to a panic. *)

Inductive outcome (A : Type) : Type :=
| Returns (a : A) (h : flowcontrol.heap)
| Panics.
Arguments Returns {A} a h.
Arguments Panics {A}.

Definition M (A : Type) : Type := flowcontrol.heap → outcome A.

#[export] Instance M_ret : MRet M := λ A a h, Returns a h.
#[export] Instance M_bind : MBind M := λ A B f c h,
  match c h with
  | Returns a h' => f a h'
  | Panics => Panics
  end.

(** A run time panic (index out of range, nil pointer dereference). *)
Definition panic {A : Type} : M A := λ _, Panics.

(** [flowcontrol.NewTokenBucketRateLimiter(qps, burst)] allocates a limiter. *)
Definition NewTokenBucketRateLimiter (qps : spec_float) (burst : Z)
  : M flowcontrol.RateLimiter :=
  λ h, Returns (Some (length h))
               (h ++ [{| flowcontrol.qps := qps; flowcontrol.burst := burst |}]).

(** The conversion [float32(x)] of a float64. *)
Definition float32 (x : spec_float) : spec_float :=
  match x with
  | S754_finite s m e => binary_round 24 128 s m e
  | _ => x
  end.

(** ** Package [ratelimit] *)

(** The errors made with [fmt.Errorf], with the arguments of their format. *)
Inductive error : Type :=
| ErrOperationAndType
    (* Must at least specify operation and rate limiter type. *)
| ErrKeyFormat (param : string)
    (* Must specify rate limit in [version].[service].[operation] format: %v *)
| ErrNumArgs (rlType : string) (expected got : nat)
    (* Invalid number of args for rate limiter type %v. Expected %d, Got %v *)
| ErrQPSArg (rlType arg : string)
    (* Invalid argument for rate limiter type %v. Either %v is not a float or
       not greater than 0. *)
| ErrBurstArg (rlType arg : string)
    (* Invalid argument for rate limiter type %v. Expected %v to be a int. *)
| ErrRateLimiterType (rlType : string).
    (* Invalid rate limiter type provided: %v *)

Record GCERateLimiter : Type := {
  rateLimitImpls : gmap cloud.RateLimitKey flowcontrol.RateLimiter
}.

(** The zero value of [cloud.RateLimitKey]. *)
Definition zeroKey : cloud.RateLimitKey :=
  {| cloud.ProjectID := ""; cloud.Operation := "";
     cloud.Version := ""; cloud.Service := "" |}.

Definition constructRateLimitKey (param : string)
  : cloud.RateLimitKey * option error :=
  let retVal := zeroKey in
  let params := strings.Split param "." in
  if negb (length params =? 3)%nat then (retVal, Some (ErrKeyFormat param))
  else
    match params with
    | [version; service; operation] =>
        ({| cloud.ProjectID := "";
            cloud.Operation := operation;
            cloud.Version := version;
            cloud.Service := service |}, None)
    | _ => (retVal, Some (ErrKeyFormat param))
    end.

(** The comparison [qps <= 0] on float64. *)
Definition float_le_zero (x : spec_float) : bool := SFleb x (S754_zero false).

Definition constructRateLimitImpl (params : list string)
  : M (flowcontrol.RateLimiter * option error) :=
  match params with
  | [] => panic (* params[0]: index out of range *)
  | rlType :: implArgs =>
      if String.eqb rlType "qps" then
        match implArgs with
        | [arg0; arg1] =>
            let '(qps, err) := strconv.ParseFloat arg0 32 in
            if bool_decide (err ≠ None) || float_le_zero qps then
              mret (None, Some (ErrQPSArg rlType arg0))
            else
              let '(burst, err) := strconv.Atoi arg1 in
              if bool_decide (err ≠ None) then
                mret (None, Some (ErrBurstArg rlType arg1))
              else
                impl ← NewTokenBucketRateLimiter (float32 qps) burst;
                mret (impl, None)
        | _ => mret (None, Some (ErrNumArgs rlType 2 (length implArgs)))
        end
      else mret (None, Some (ErrRateLimiterType rlType))
  end.

(** The loop of [NewGCERateLimiter] over the specs, from the map built so
    far. An error ends the loop with a [nil] registry. *)
Fixpoint NewGCERateLimiter_loop (specs : list string)
    (rateLimitImpls : gmap cloud.RateLimitKey flowcontrol.RateLimiter)
  : M (option (gmap cloud.RateLimitKey flowcontrol.RateLimiter) * option error) :=
  match specs with
  | [] => mret (Some rateLimitImpls, None)
  | spec :: specs' =>
      let params := strings.Split spec "," in
      if (length params <? 2)%nat then mret (None, Some ErrOperationAndType)
      else
        match params with
        | [] => panic (* params[0]: index out of range *)
        | param0 :: params1 =>
            let '(key, err) := constructRateLimitKey param0 in
            match err with
            | Some e => mret (None, Some e)
            | None =>
                '(impl, err) ← constructRateLimitImpl params1;
                match err with
                | Some e => mret (None, Some e)
                | None =>
                    NewGCERateLimiter_loop specs' (<[key := impl]> rateLimitImpls)
                end
            end
        end
  end.

Definition NewGCERateLimiter (specs : list string)
  : M (option GCERateLimiter * option error) :=
  '(r, err) ← NewGCERateLimiter_loop specs ∅;
  match r with
  | None => mret (None, err)
  | Some rateLimitImpls =>
      if (size rateLimitImpls =? 0)%nat then mret (None, None)
      else mret (Some {| rateLimitImpls := rateLimitImpls |}, None)
  end.

(** ** [rateLimitImpl] and [Accept] *)

(** The result of [l.rateLimitImpl(key)]: a limiter ([nil] on a map miss),
    or the panic of the access [l.rateLimitImpls] through a [nil] receiver. *)
Inductive lookup : Type :=
| Found (impl : flowcontrol.RateLimiter)
| NilDereference.

Definition rateLimitImpl (l : option GCERateLimiter) (key : cloud.RateLimitKey)
  : lookup :=
  let keyCopy :=
    {| cloud.ProjectID := "";
       cloud.Operation := cloud.Operation key;
       cloud.Version := cloud.Version key;
       cloud.Service := cloud.Service key |} in
  match l with
  | None => NilDereference
  | Some r => Found (default None (rateLimitImpls r !! keyCopy))
  end.

(** Where the task started with [go func()] stands. *)
Inductive task : Type :=
| TLookup                          (* before [impl := l.rateLimitImpl(key)] *)
| TAccept (impl : flowcontrol.loc) (* in [impl.Accept()], until a token comes *)
| TClose                           (* before [close(ch)] *)
| TDone                            (* the function has returned *)
| TPanic.                          (* nil pointer dereference: the program dies *)

(** Where the caller stands: in the [select], or returned with an error
    value ([None] is [nil]). *)
Inductive caller : Type :=
| CSelect
| CReturned (err : option context.Err).

Record state : Type := {
  st_caller : caller;
  st_task : task;
  st_ch : bool;                   (* [ch] is closed *)
  st_ctx : option context.Err;    (* [ctx.Err()]: [Some] once [ctx.Done()] is closed *)
  st_tokens : gmap nat nat        (* the tokens each limiter can hand out now *)
}.

Definition set_caller (s : state) (c : caller) : state :=
  {| st_caller := c; st_task := st_task s; st_ch := st_ch s;
     st_ctx := st_ctx s; st_tokens := st_tokens s |}.

Definition set_task (s : state) (t : task) : state :=
  {| st_caller := st_caller s; st_task := t; st_ch := st_ch s;
     st_ctx := st_ctx s; st_tokens := st_tokens s |}.

Definition set_ch (s : state) (b : bool) : state :=
  {| st_caller := st_caller s; st_task := st_task s; st_ch := b;
     st_ctx := st_ctx s; st_tokens := st_tokens s |}.

Definition set_ctx (s : state) (e : option context.Err) : state :=
  {| st_caller := st_caller s; st_task := st_task s; st_ch := st_ch s;
     st_ctx := e; st_tokens := st_tokens s |}.

Definition set_tokens (s : state) (t : gmap nat nat) : state :=
  {| st_caller := st_caller s; st_task := st_task s; st_ch := st_ch s;
     st_ctx := st_ctx s; st_tokens := t |}.

(** Who moves. *)
Inductive label : Type :=
| LTask                            (* the task *)
| LCaller                          (* the caller, out of the [select] *)
| LCancel                          (* the context: cancelled, or its deadline passes *)
| LRefill (impl : flowcontrol.loc). (* time: the bucket of a limiter gains a token *)

#[global] Instance label_eq_dec : EqDecision label.
Proof. solve_decision. Defined.

(** The steps of a call [l.Accept(ctx, key)].
    - The task looks the limiter up: through a [nil] receiver this panics;
      with no limiter for the key it goes on to close the channel; with a
      limiter it enters [impl.Accept()], which returns when the bucket
      hands out a token, and takes that token.
    - The caller leaves the [select] by any case that is ready: with [nil]
      when [ch] is closed, with [ctx.Err()] when [ctx.Done()] is closed.
    - The context may become done and buckets may gain tokens at any time.
    A panic of the task ends the program: neither goroutine moves on. *)
Inductive step (l : option GCERateLimiter) (key : cloud.RateLimitKey)
  : state → label → state → Prop :=
| step_lookup_panic s :
    st_task s = TLookup →
    rateLimitImpl l key = NilDereference →
    step l key s LTask (set_task s TPanic)
| step_lookup_nil s :
    st_task s = TLookup →
    rateLimitImpl l key = Found None →
    step l key s LTask (set_task s TClose)
| step_lookup_impl s impl :
    st_task s = TLookup →
    rateLimitImpl l key = Found (Some impl) →
    step l key s LTask (set_task s (TAccept impl))
| step_accept s impl n :
    st_task s = TAccept impl →
    st_tokens s !! impl = Some (S n) →
    step l key s LTask (set_task (set_tokens s (<[impl := n]> (st_tokens s))) TClose)
| step_close s :
    st_task s = TClose →
    step l key s LTask (set_task (set_ch s true) TDone)
| step_select_ch s :
    st_caller s = CSelect →
    st_task s ≠ TPanic →
    st_ch s = true →
    step l key s LCaller (set_caller s (CReturned None))
| step_select_done s e :
    st_caller s = CSelect →
    st_task s ≠ TPanic →
    st_ctx s = Some e →
    step l key s LCaller (set_caller s (CReturned (Some e)))
| step_cancel s e :
    st_task s ≠ TPanic →
    st_ctx s = None →
    step l key s LCancel (set_ctx s (Some e))
| step_refill s impl n :
    st_tokens s !! impl = Some n →
    step l key s (LRefill impl) (set_tokens s (<[impl := S n]> (st_tokens s))).

(** Executions, with the labels of their steps. *)
Inductive exec (l : option GCERateLimiter) (key : cloud.RateLimitKey)
  : state → list label → state → Prop :=
| exec_nil s : exec l key s [] s
| exec_cons s lab s1 tr s2 :
    step l key s lab s1 → exec l key s1 tr s2 → exec l key s (lab :: tr) s2.

(** The state in which the [select] is entered: the channel is made and
    the task is started; [ctx] tells whether the context is done already,
    [tokens] what the buckets hold. *)
Definition start (ctx : option context.Err) (tokens : gmap nat nat) : state :=
  {| st_caller := CSelect; st_task := TLookup; st_ch := false;
     st_ctx := ctx; st_tokens := tokens |}.

(** [Accept l ctx key tokens tr s]: the call [l.Accept(ctx, key)] (with a
    [key] that is not [nil]) stands in [s] after the steps [tr]. It has
    returned [err] there when [st_caller s = CReturned err]. *)
Definition Accept (l : option GCERateLimiter) (ctx : option context.Err)
    (key : cloud.RateLimitKey) (tokens : gmap nat nat)
    (tr : list label) (s : state) : Prop :=
  exec l key (start ctx tokens) tr s.

(** ** What the specification says *)

(** The limiters a registry configures, as the arguments they were built
    with: the view of the registry through the heap. An absent registry
    configures nothing. *)
Definition configured (l : option GCERateLimiter) (h : flowcontrol.heap)
  : gmap cloud.RateLimitKey flowcontrol.tokenBucketRateLimiter :=
  match l with
  | None => ∅
  | Some r => omap (λ impl : flowcontrol.RateLimiter, impl ≫= (h !!.)) (rateLimitImpls r)
  end.

(** The comparison [0 < x] on float64. *)
Definition float_pos (x : spec_float) : bool := SFltb (S754_zero false) x.

(** A well-formed spec, in the words of the specification: four comma
    separated fields, of which the first splits into the three dot separated
    fields of the key, the second is the type [qps], the third parses as a
    positive rate and the fourth as an integer burst. The result is the key
    and the arguments of the limiter that the spec asks for. *)
Definition wellFormedSpec (spec : string)
  : option (cloud.RateLimitKey * flowcontrol.tokenBucketRateLimiter) :=
  match strings.Split spec "," with
  | [keyPart; type; rate; burst] =>
      match strings.Split keyPart "." with
      | [version; service; operation] =>
          let '(q, rateErr) := strconv.ParseFloat rate 32 in
          let '(n, burstErr) := strconv.Atoi burst in
          if String.eqb type "qps" && bool_decide (rateErr = None) && float_pos q
             && bool_decide (burstErr = None)
          then Some ({| cloud.ProjectID := "";
                        cloud.Operation := operation;
                        cloud.Version := version;
                        cloud.Service := service |},
                     {| flowcontrol.qps := float32 q; flowcontrol.burst := n |})
          else None
      | _ => None
      end
  | _ => None
  end.

(** The spec that the code rejects and the error it rejects it with, by the
    tests of the code in the order it makes them: fewer than two comma
    separated fields; a key part that does not split into exactly three dot
    separated fields; a limiter type other than [qps]; [qps] parameters that
    are not two, a rate that does not parse or compares at most zero (the
    test [qps <= 0] of the code, which lets NaN through), a burst that does
    not parse. [None]: the code accepts the spec. This is not the malformed
    spec of the specification, which is [malformedSpec] below. *)
Definition configError (spec : string) : option error :=
  match strings.Split spec "," with
  | keyPart :: type :: implArgs =>
      if negb (length (strings.Split keyPart ".") =? 3)%nat
      then Some (ErrKeyFormat keyPart)
      else if negb (String.eqb type "qps") then Some (ErrRateLimiterType type)
      else
        match implArgs with
        | [rate; burst] =>
            if bool_decide ((strconv.ParseFloat rate 32).2 ≠ None)
               || float_le_zero (strconv.ParseFloat rate 32).1
            then Some (ErrQPSArg type rate)
            else if bool_decide ((strconv.Atoi burst).2 ≠ None)
            then Some (ErrBurstArg type burst)
            else None
        | _ => Some (ErrNumArgs type 2 (length implArgs))
        end
  | _ => Some ErrOperationAndType
  end.

(** A malformed spec, in the words of the specification: fewer than two
    comma separated fields; a key part that does not split into exactly three
    dot separated fields; a limiter type other than [qps]; bad [qps]
    parameters, that is not exactly two of them, a rate that does not parse
    as a positive number, or a burst that does not parse as an integer. *)
Definition malformedSpec (spec : string) : bool :=
  match strings.Split spec "," with
  | keyPart :: type :: implArgs =>
      negb (length (strings.Split keyPart ".") =? 3)%nat
      || negb (String.eqb type "qps")
      || match implArgs with
         | [rate; burst] =>
             negb (bool_decide ((strconv.ParseFloat rate 32).2 = None)
                   && float_pos (strconv.ParseFloat rate 32).1)
             || negb (bool_decide ((strconv.Atoi burst).2 = None))
         | _ => true
         end
  | _ => true
  end.

(** No limiter is configured for the key: the registry is absent, or its
    map does not hold the key. *)
Definition unconfigured (l : option GCERateLimiter) (key : cloud.RateLimitKey)
  : Prop :=
  l = None ∨ rateLimitImpl l key = Found None.

(** In every execution the call returns [nil]. *)
Definition always_admitted (l : option GCERateLimiter) (key : cloud.RateLimitKey)
    (ctx : option context.Err) (tokens : gmap nat nat) : Prop :=
  ∀ tr s err,
    Accept l ctx key tokens tr s → st_caller s = CReturned err → err = None.

(** ** Definitions for the proofs *)

(** The bytes of a string. *)
Fixpoint bytes (s : string) : list ascii :=
  match s with
  | EmptyString => []
  | String c s' => c :: bytes s'
  end.

(** Every limiter of the map is allocated in the heap. *)
Definition allocated (m : gmap cloud.RateLimitKey flowcontrol.RateLimiter)
    (h : flowcontrol.heap) : Prop :=
  ∀ key impl, m !! key = Some impl → ∃ a : nat, impl = Some a ∧ (a < length h)%nat.

(** Registration, on the view of the registry: a later limiter replaces an
    earlier one of the same key. *)
Definition register
    (acc : gmap cloud.RateLimitKey flowcontrol.tokenBucketRateLimiter)
    (entry : cloud.RateLimitKey * flowcontrol.tokenBucketRateLimiter)
  : gmap cloud.RateLimitKey flowcontrol.tokenBucketRateLimiter :=
  <[entry.1 := entry.2]> acc.

(** Invariants of the calls of [Accept]: for a key without limiter, ... *)
Definition inv_miss (s : state) : Prop :=
  (st_task s = TLookup ∨ st_task s = TClose ∨ st_task s = TDone)
  ∧ (∀ e, st_caller s = CReturned (Some e) → st_ctx s = Some e).

(** ... while the context is not done, ... *)
Definition inv_live (s : state) : Prop :=
  st_ctx s = None ∧ (∀ err, st_caller s = CReturned err → err = None).

(** ... and while no bucket is refilled; ... *)
Definition inv_tokens (tokens : gmap nat nat) (s : state) : Prop :=
  st_tokens s = tokens.

(** ... for a key whose limiter has no token, under a done context; ... *)
Definition inv_exhausted (impl : nat) (e : context.Err) (s : state) : Prop :=
  st_ch s = false
  ∧ (st_task s = TLookup ∨ st_task s = TAccept impl)
  ∧ st_tokens s !! impl = Some 0%nat
  ∧ st_ctx s = Some e
  ∧ (∀ err, st_caller s = CReturned err → err = Some e).

(** ... and for the [nil] registry. *)
Definition inv_nil (s : state) : Prop :=
  st_ch s = false
  ∧ st_caller s ≠ CReturned None
  ∧ (st_task s = TLookup ∨ st_task s = TPanic).

(** ** Inputs of the examples *)

Definition addressesGet : cloud.RateLimitKey :=
  {| cloud.ProjectID := ""; cloud.Operation := "Get";
     cloud.Version := "ga"; cloud.Service := "Addresses" |}.

(** Lookup keys carry the project of the caller. *)
Definition addressesGetOf (project : string) : cloud.RateLimitKey :=
  {| cloud.ProjectID := project; cloud.Operation := "Get";
     cloud.Version := "ga"; cloud.Service := "Addresses" |}.

Definition firewallsGetOf (project : string) : cloud.RateLimitKey :=
  {| cloud.ProjectID := project; cloud.Operation := "Get";
     cloud.Version := "ga"; cloud.Service := "Firewalls" |}.

(** The registry of the single spec [ga.Addresses.Get,qps,1.5,5], built on
    the empty heap. *)
Definition addressesRegistry : GCERateLimiter :=
  {| rateLimitImpls := {[ addressesGet := Some 0%nat ]} |}.

(** The cases of [TestConfigureGCERateLimiting]. *)
Definition validTestCases : list (list string) :=
  [ ["ga.Addresses.Get,qps,1.5,5"];
    ["ga.Addresses.List,qps,2,10"];
    ["ga.Addresses.Get,qps,1.5,5"; "ga.Firewalls.Get,qps,1.5,5"];
    ["ga.Operations.Get,qps,10,100"] ].

Definition invalidTestCases : list (list string) :=
  [ ["gaAddresses.Get,qps,1.5,5"];
    ["gaAddresses.Get,qps,0,5"];
    ["gaAddresses.Get,qps,-1,5"];
    ["ga.Addresses.Get,qps,1.5.5"];
    ["gaAddresses.Get,qps,1.5,5.5"];
    ["gaAddressesGet,qps,1.5,5.5"];
    ["gaAddressesGet,qps,1.5"];
    ["ga.Addresses.Get,foo,1.5,5"];
    ["ga.Addresses.Get,1.5,5"];
    ["ga.Addresses.Get,qps,1.5,5"; "gaFirewalls.Get,qps,1.5,5"] ].

(** [err == nil] for the construction from [specs] on the empty heap. *)
Definition noError (specs : list string) : bool :=
  match NewGCERateLimiter specs [] with
  | Returns (_, None) _ => true
  | _ => false
  end.

(** ** Definitions for the further properties *)

(** The number of occurrences of a byte in a string. *)
Fixpoint countByte (sep : ascii) (s : string) : nat :=
  match s with
  | EmptyString => 0
  | String c s' => (if Ascii.eqb c sep then 1 else 0) + countByte sep s'
  end.

(** The lookup key of a caller: a key with the project filled in. *)
Definition withProject (key : cloud.RateLimitKey) (project : string)
  : cloud.RateLimitKey :=
  {| cloud.ProjectID := project;
     cloud.Operation := cloud.Operation key;
     cloud.Version := cloud.Version key;
     cloud.Service := cloud.Service key |}.

(** The index of the last occurrence of a key in a list of keys. *)
Fixpoint lastIndexOf (key : cloud.RateLimitKey) (keys : list cloud.RateLimitKey)
  : option nat :=
  match keys with
  | [] => None
  | key' :: keys' =>
      match lastIndexOf key keys' with
      | Some i => Some (S i)
      | None => if decide (key = key') then Some 0%nat else None
      end
  end.

(** The sign bit of a float; NaN is taken without sign. *)
Definition signbit (x : spec_float) : bool :=
  match x with
  | S754_zero s | S754_infinity s | S754_finite s _ _ => s
  | S754_nan => false
  end.

(** What the loop of [NewGCERateLimiter] keeps of its map: the keys have
    no project, the limiters are allocated at addresses from [h0] on, and
    no two keys share a limiter. *)
Definition registryOK (h0 : nat)
    (m : gmap cloud.RateLimitKey flowcontrol.RateLimiter)
    (h : flowcontrol.heap) : Prop :=
  (∀ key impl,
      m !! key = Some impl →
      cloud.ProjectID key = "" ∧ ∃ a : nat, impl = Some a ∧ (h0 ≤ a < length h)%nat)
  ∧ (∀ key1 key2 (a : nat),
        m !! key1 = Some (Some a) → m !! key2 = Some (Some a) → key1 = key2).

(** The range of Go's [int] on a 64 bit platform. *)
Definition fitsInt (n : Z) : Prop := - 2 ^ 63 ≤ n < 2 ^ 63.

(** The tokens that time has put into the bucket of [a] along a trace. *)
Definition refills (a : nat) (tr : list label) : nat :=
  length (filter (λ lab, lab = LRefill a) tr).

(** The tokens that the task has taken from the bucket of [a], when [impl]
    is the limiter of the key: one once [impl.Accept()] has returned. *)
Definition taken (impl a : nat) (s : state) : nat :=
  if decide (a = impl) then
    match st_task s with
    | TClose | TDone => 1
    | _ => 0
    end
  else 0.

(** What holds of every state of a call: the channel is closed by the
    finished task only, [nil] is returned on the closed channel only, an
    error returned is the error of the context. *)
Definition inv_return (s : state) : Prop :=
  (st_ch s = true → st_task s = TDone)
  ∧ (st_caller s = CReturned None → st_ch s = true)
  ∧ (∀ e, st_caller s = CReturned (Some e) → st_ctx s = Some e).

(** The task waits in the limiter of the key and in no other. *)
Definition inv_task (impl : nat) (s : state) : Prop :=
  ∀ i, st_task s = TAccept i → i = impl.

(** With an empty bucket and a context that is not done the caller stays
    in the [select]. *)
Definition inv_blocked (impl : nat) (s : state) : Prop :=
  st_ch s = false
  ∧ (st_task s = TLookup ∨ st_task s = TAccept impl)
  ∧ st_tokens s !! impl = Some 0%nat
  ∧ st_ctx s = None
  ∧ st_caller s = CSelect.

(** ** Tactics *)

(** Unfold the heap monad. *)
Ltac run :=
  unfold mbind, M_bind, mret, M_ret, panic, NewTokenBucketRateLimiter; simpl.

(** * Properties *)

(** ** The library functions on examples *)

Example Split_spec :
  strings.Split "ga.Addresses.Get,qps,1.5,5" "," = ["ga.Addresses.Get"; "qps"; "1.5"; "5"].
Proof. reflexivity. Qed.

Example Split_empty : strings.Split "" "," = [""].
Proof. reflexivity. Qed.

Example Split_edges : strings.Split ",a,," "," = [""; "a"; ""; ""].
Proof. reflexivity. Qed.

Example Atoi_examples :
  map strconv.Atoi ["5"; "-3"; "+7"; "007"; ""; "-"; "5.5"; " 5"; "9223372036854775808"]
  = [(5, None); (-3, None); (7, None); (7, None);
     (0, Some strconv.ErrSyntax); (0, Some strconv.ErrSyntax);
     (0, Some strconv.ErrSyntax); (0, Some strconv.ErrSyntax);
     (9223372036854775807, Some strconv.ErrRange)].
Proof. vm_compute. reflexivity. Qed.

Example ParseFloat_examples :
  map (λ s, strconv.ParseFloat s 32)
      ["1.5"; "0.1"; "16777217"; "3.4028235e38"; "1e-45"; "-1"; "0"; "1e-50"]
  = [(S754_finite false 12582912 (-23), None);
     (S754_finite false 13421773 (-27), None);
     (S754_finite false 8388608 1, None);
     (S754_finite false 16777215 104, None);
     (S754_finite false 1 (-149), None);
     (S754_finite true 8388608 (-23), None);
     (S754_zero false, None);
     (S754_zero false, None)].
Proof. vm_compute. reflexivity. Qed.

Example ParseFloat_special_and_errors :
  map (λ s, strconv.ParseFloat s 32)
      ["NaN"; "nan"; "Inf"; "-infinity"; "1e39"; "3.4028236e38"; "1.5.5"; ""; "qps"; "1e"]
  = [(S754_nan, None); (S754_nan, None);
     (S754_infinity false, None); (S754_infinity true, None);
     (S754_infinity false, Some strconv.ErrRange);
     (S754_infinity false, Some strconv.ErrRange);
     (S754_zero false, Some strconv.ErrSyntax);
     (S754_zero false, Some strconv.ErrSyntax);
     (S754_zero false, Some strconv.ErrSyntax);
     (S754_zero false, Some strconv.ErrSyntax)].
Proof. vm_compute. reflexivity. Qed.

(** ** The test of the package *)

Example TestConfigureGCERateLimiting :
  forallb noError validTestCases = true
  ∧ forallb (λ specs, negb (noError specs)) invalidTestCases = true.
Proof. split; vm_compute; reflexivity. Qed.

(** ** [strings.Split] *)

Lemma Split_nonempty (s : string) (sep : ascii) : strings.Split s sep ≠ [].
Proof.
  destruct s as [|c s]; simpl; [done|].
  destruct (Ascii.eqb c sep); [done|].
  by destruct (strings.Split s sep).
Qed.

(** A string without the separator is one piece. *)
Lemma Split_no_sep (s : string) (sep : ascii) :
  sep ∉ bytes s → strings.Split s sep = [s].
Proof.
  induction s as [|c s IH]; simpl; [done|].
  intros Hnot. apply not_elem_of_cons in Hnot as [Hne Hnot].
  destruct (Ascii.eqb_spec c sep) as [->|_]; [done|].
  by rewrite IH.
Qed.

(** Splitting cuts at the first separator. *)
Lemma Split_app (a b : string) (sep : ascii) :
  sep ∉ bytes a →
  strings.Split (a +:+ String sep b) sep = a :: strings.Split b sep.
Proof.
  induction a as [|c a IH]; simpl.
  - intros _. by rewrite Ascii.eqb_refl.
  - intros Hnot. apply not_elem_of_cons in Hnot as [Hne Hnot].
    destruct (Ascii.eqb_spec c sep) as [->|_]; [done|].
    by rewrite IH.
Qed.

(** The fields of a spec written out: four fields without comma, joined
    by commas, split into themselves. *)
Lemma Split_fields (keyPart type rate burst : string) (comma := ","%char) :
  comma ∉ bytes keyPart → comma ∉ bytes type →
  comma ∉ bytes rate → comma ∉ bytes burst →
  strings.Split
    (keyPart +:+ String comma (type +:+ String comma (rate +:+ String comma burst)))
    comma
  = [keyPart; type; rate; burst].
Proof.
  intros Hk Ht Hr Hb.
  by rewrite !Split_app, Split_no_sep.
Qed.

(** ** Comparisons with zero *)

Lemma float_pos_not_le_zero (x : spec_float) :
  float_pos x = true → float_le_zero x = false.
Proof. by destruct x as [[]|[]| |[] m e]. Qed.

Lemma float_nan_not_le_zero : float_le_zero S754_nan = false.
Proof. reflexivity. Qed.

Lemma float_nan_not_pos : float_pos S754_nan = false.
Proof. reflexivity. Qed.

(** ** One turn of the loop of [NewGCERateLimiter] *)

Section LoopBody.

Local Opaque strconv.ParseFloat strconv.Atoi.

Variables (spec : string) (specs : list string).
Variable rateLimitImpls : gmap cloud.RateLimitKey flowcontrol.RateLimiter.
Variable h : flowcontrol.heap.

(** A malformed spec ends the loop with its error and no registry. *)
Lemma loop_cons_error (e : error) :
  configError spec = Some e →
  NewGCERateLimiter_loop (spec :: specs) rateLimitImpls h
  = Returns (None, Some e) h.
Proof.
  unfold configError. simpl.
  destruct (strings.Split spec ",") as [|keyPart [|type implArgs]] eqn:Hsplit;
    [by destruct (Split_nonempty _ _ Hsplit)| |].
  { intros [= <-]. reflexivity. }
  simpl. unfold constructRateLimitKey.
  destruct (strings.Split keyPart ".") as [|v [|sv [|o [|]]]]; simpl;
    try (intros [= <-]; reflexivity).
  run. destruct (String.eqb type "qps"); simpl;
    [|intros [= <-]; reflexivity].
  destruct implArgs as [|rate [|burst [|]]]; try (intros [= <-]; reflexivity).
  destruct (strconv.ParseFloat rate 32) as [q rateErr]; simpl.
  destruct (bool_decide (rateErr ≠ None) || float_le_zero q); simpl;
    [intros [= <-]; reflexivity|].
  destruct (strconv.Atoi burst) as [n burstErr]; simpl.
  destruct (bool_decide (burstErr ≠ None)); simpl;
    [intros [= <-]; reflexivity|done].
Qed.

(** A spec that no rule rejects adds a fresh limiter under its key, and
    the loop goes on. *)
Lemma loop_cons_ok :
  configError spec = None →
  ∃ key lim,
    NewGCERateLimiter_loop (spec :: specs) rateLimitImpls h
    = NewGCERateLimiter_loop specs (<[key := Some (length h)]> rateLimitImpls)
                             (h ++ [lim]).
Proof.
  unfold configError. simpl.
  destruct (strings.Split spec ",") as [|keyPart [|type implArgs]];
    try discriminate.
  simpl. unfold constructRateLimitKey.
  destruct (strings.Split keyPart ".") as [|v [|sv [|o [|]]]]; simpl;
    try discriminate.
  run. destruct (String.eqb type "qps"); simpl; [|discriminate].
  destruct implArgs as [|rate [|burst [|]]]; try discriminate.
  destruct (strconv.ParseFloat rate 32) as [q rateErr]; simpl.
  destruct (bool_decide (rateErr ≠ None) || float_le_zero q); simpl;
    [discriminate|].
  destruct (strconv.Atoi burst) as [n burstErr]; simpl.
  destruct (bool_decide (burstErr ≠ None)); simpl; [discriminate|].
  intros _. eauto.
Qed.

(** A well-formed spec adds the limiter it asks for under its key. *)
Lemma loop_cons_wellFormed key lim :
  wellFormedSpec spec = Some (key, lim) →
  NewGCERateLimiter_loop (spec :: specs) rateLimitImpls h
  = NewGCERateLimiter_loop specs (<[key := Some (length h)]> rateLimitImpls)
                           (h ++ [lim]).
Proof.
  unfold wellFormedSpec. simpl.
  destruct (strings.Split spec ",") as [|keyPart [|type [|rate [|burst [|]]]]];
    try discriminate.
  simpl. unfold constructRateLimitKey.
  destruct (strings.Split keyPart ".") as [|v [|sv [|o [|]]]]; simpl;
    try discriminate.
  run.
  destruct (strconv.ParseFloat rate 32) as [q rateErr]; simpl.
  destruct (strconv.Atoi burst) as [n burstErr]; simpl.
  destruct (String.eqb type "qps"); simpl; [|discriminate].
  destruct rateErr; simpl; [discriminate|].
  destruct (float_pos q) eqn:Hpos; simpl; [|discriminate].
  rewrite (float_pos_not_le_zero _ Hpos).
  destruct burstErr; simpl; [discriminate|].
  by intros [= <- <-].
Qed.

End LoopBody.

(** No rule rejects a well-formed spec. *)
Lemma wellFormedSpec_configError (spec : string) :
  is_Some (wellFormedSpec spec) → configError spec = None.
Proof.
  unfold wellFormedSpec, configError. intros [kl Hwf]. revert Hwf.
  destruct (strings.Split spec ",") as [|keyPart [|type [|rate [|burst [|]]]]];
    try discriminate.
  destruct (strings.Split keyPart ".") as [|v [|sv [|o [|]]]]; simpl;
    try discriminate.
  destruct (strconv.ParseFloat rate 32) as [q rateErr]; simpl.
  destruct (strconv.Atoi burst) as [n burstErr]; simpl.
  destruct (String.eqb type "qps"); simpl; [|discriminate].
  destruct rateErr; simpl; [discriminate|].
  destruct (float_pos q) eqn:Hpos; simpl; [|discriminate].
  rewrite (float_pos_not_le_zero _ Hpos).
  by destruct burstErr.
Qed.

(** ** The registry and the heap *)

Lemma allocated_empty h : allocated ∅ h.
Proof. intros key impl. by rewrite lookup_empty. Qed.

Lemma allocated_insert m h key lim :
  allocated m h → allocated (<[key := Some (length h)]> m) (h ++ [lim]).
Proof.
  intros Hm key' impl. rewrite length_app. simpl.
  destruct (decide (key = key')) as [->|Hne].
  - rewrite lookup_insert_eq. intros [= <-]. exists (length h). split; [done|lia].
  - rewrite lookup_insert_ne by done. intros Hl.
    destruct (Hm _ _ Hl) as (a & -> & Ha). exists a. split; [done|lia].
Qed.

Lemma configured_insert m h key lim :
  allocated m h →
  configured (Some {| rateLimitImpls := <[key := Some (length h)]> m |}) (h ++ [lim])
  = register (configured (Some {| rateLimitImpls := m |}) h) (key, lim).
Proof.
  intros Hm. unfold configured, register. simpl. apply map_eq. intros key'.
  rewrite lookup_omap. destruct (decide (key = key')) as [->|Hne].
  - rewrite !lookup_insert_eq. simpl.
    by rewrite lookup_app_r, Nat.sub_diag by lia.
  - rewrite !lookup_insert_ne by done. rewrite lookup_omap.
    destruct (m !! key') as [impl|] eqn:Hl; [|done]. simpl.
    destruct (Hm _ _ Hl) as (a & -> & Ha). simpl.
    by rewrite lookup_app_l.
Qed.

Lemma configured_dom m h :
  allocated m h → dom (configured (Some {| rateLimitImpls := m |}) h) = dom m.
Proof.
  intros Hm. apply set_eq. intros key. rewrite !elem_of_dom.
  unfold configured. simpl. rewrite lookup_omap.
  destruct (m !! key) as [impl|] eqn:Hl; simpl.
  - destruct (Hm _ _ Hl) as (a & -> & Ha). simpl.
    destruct (lookup_lt_is_Some_2 h a Ha) as [lim ->]. split; eauto.
  - split; intros [? ?]; done.
Qed.

(** ** Registration in input order *)

Lemma foldl_register_reverse parsed acc :
  foldl register acc parsed = list_to_map (reverse parsed) ∪ acc.
Proof.
  revert acc. induction parsed as [|[key lim] parsed IH]; intros acc; simpl.
  - by rewrite (left_id_L ∅ (∪)).
  - rewrite IH, reverse_cons, list_to_map_app. simpl.
    rewrite <- (assoc_L (∪)). f_equal.
    unfold register. simpl. rewrite insert_union_singleton_l.
    by rewrite insert_empty.
Qed.

Lemma foldl_register_other parsed acc key :
  key ∉ parsed.*1 → foldl register acc parsed !! key = acc !! key.
Proof.
  revert acc. induction parsed as [|[key' lim'] parsed IH]; intros acc; simpl;
    [done|].
  intros Hnot. apply not_elem_of_cons in Hnot as [Hne Hnot].
  rewrite IH by done. unfold register. simpl. by rewrite lookup_insert_ne.
Qed.

(** The entry of a key that no later entry names is the one registered. *)
Lemma foldl_register_last parsed acc i key lim :
  parsed !! i = Some (key, lim) →
  (∀ j lim', (i < j)%nat → parsed !! j ≠ Some (key, lim')) →
  foldl register acc parsed !! key = Some lim.
Proof.
  revert acc i. induction parsed as [|entry parsed IH]; intros acc i; [done|].
  destruct i as [|i]; simpl.
  - intros [= ->] Hlater. rewrite foldl_register_other.
    + unfold register. simpl. by rewrite lookup_insert_eq.
    + intros Hin. apply list_elem_of_fmap in Hin as ([key' lim'] & Hk & Hin).
      simpl in Hk. subst key'.
      apply list_elem_of_lookup in Hin as [j Hj].
      apply (Hlater (S j) lim'); [lia|done].
  - intros Hi Hlater. apply (IH _ i); [done|].
    intros j lim' Hij. apply (Hlater (S j) lim'). lia.
Qed.

Lemma foldl_register_dom parsed acc :
  dom (foldl register acc parsed) = list_to_set parsed.*1 ∪ dom acc.
Proof.
  revert acc. induction parsed as [|[key lim] parsed IH]; intros acc; simpl.
  - set_solver.
  - rewrite IH. unfold register. simpl. rewrite dom_insert_L. set_solver.
Qed.

(** ** The loop on well-formed specs *)

Lemma loop_wellFormed specs m h :
  Forall (λ spec, is_Some (wellFormedSpec spec)) specs →
  allocated m h →
  let parsed := omap wellFormedSpec specs in
  ∃ m',
    NewGCERateLimiter_loop specs m h = Returns (Some m', None) (h ++ parsed.*2)
    ∧ allocated m' (h ++ parsed.*2)
    ∧ configured (Some {| rateLimitImpls := m' |}) (h ++ parsed.*2)
      = foldl register (configured (Some {| rateLimitImpls := m |}) h) parsed.
Proof.
  intros Hwf. revert m h.
  induction Hwf as [|spec specs [[key lim] Hspec] _ IH]; intros m h Hm parsed.
  - exists m. subst parsed. simpl. rewrite app_nil_r. done.
  - rewrite (loop_cons_wellFormed _ _ _ _ _ _ Hspec).
    subst parsed. cbn [omap list_omap]. rewrite Hspec. cbn [fmap list_fmap foldl snd].
    destruct (IH _ _ (allocated_insert m h key lim Hm)) as (m' & Hrun & Hm' & Hview).
    rewrite <- (assoc_L (++)) in Hrun, Hm', Hview.
    cbn [app] in Hrun, Hm', Hview.
    exists m'. split_and!; [done|done|].
    rewrite Hview. by rewrite configured_insert.
Qed.

(** Construction from well-formed specs: no error, and the registry
    configures the entries of the specs, registered in input order. *)
Lemma NewGCERateLimiter_wellFormed specs h :
  Forall (λ spec, is_Some (wellFormedSpec spec)) specs →
  let parsed := omap wellFormedSpec specs in
  ∃ l,
    NewGCERateLimiter specs h = Returns (l, None) (h ++ parsed.*2)
    ∧ configured l (h ++ parsed.*2) = foldl register ∅ parsed
    ∧ (l = None ↔ specs = []).
Proof.
  intros Hwf parsed.
  destruct (loop_wellFormed specs ∅ h Hwf (allocated_empty h))
    as (m' & Hrun & Hm' & Hview).
  fold parsed in Hrun, Hm', Hview.
  assert (∀ h', configured (Some {| rateLimitImpls := ∅ |}) h' = ∅) as Hempty.
  { intros h'. apply omap_empty. }
  rewrite Hempty in Hview.
  unfold NewGCERateLimiter, mbind, M_bind. rewrite Hrun. cbn beta iota.
  destruct (Nat.eqb_spec (size m') 0) as [Hsize|Hsize].
  - apply map_size_empty_inv in Hsize. subst m'.
    exists None. split_and!; [done| |].
    + by rewrite <- Hview, Hempty.
    + split; [intros _|done].
      destruct Hwf as [|spec specs [[key lim] Hspec] Hwf]; [done|].
      exfalso. rewrite Hempty in Hview.
      assert (key ∈ dom (foldl register ∅ parsed)) as Hin.
      { rewrite foldl_register_dom. subst parsed.
        cbn [omap list_omap]. rewrite Hspec. set_solver. }
      rewrite <- Hview in Hin. set_solver.
  - exists (Some {| rateLimitImpls := m' |}). split_and!; [done|done|].
    split; [done|]. intros ->. cbn in Hrun.
    unfold mret, M_ret in Hrun. injection Hrun as <- _.
    by rewrite map_size_empty in Hsize.
Qed.

Lemma exec_invariant l key (P : label → Prop) (Inv : state → Prop) :
  (∀ s lab s', P lab → Inv s → step l key s lab s' → Inv s') →
  ∀ s tr s', exec l key s tr s' → Forall P tr → Inv s → Inv s'.
Proof.
  intros Hstep s tr s' Hexec. induction Hexec as [|s lab s1 tr s2 Hs _ IH]; [done|].
  intros HP Hinv. apply Forall_cons in HP as [Hlab HP].
  apply IH; [done|]. by apply (Hstep s lab).
Qed.

Lemma exec_invariant_all l key (Inv : state → Prop) :
  (∀ s lab s', Inv s → step l key s lab s' → Inv s') →
  ∀ s tr s', exec l key s tr s' → Inv s → Inv s'.
Proof.
  intros Hstep s tr s' Hexec.
  apply (exec_invariant l key (λ _, True) Inv) with (tr := tr); [eauto|done|].
  by apply Forall_true.
Qed.

Example addressesRegistry_built :
  NewGCERateLimiter ["ga.Addresses.Get,qps,1.5,5"] []
  = Returns (Some addressesRegistry, None)
            [{| flowcontrol.qps := S754_finite false 12582912 (-23);
                flowcontrol.burst := 5 |}].
Proof. vm_compute. reflexivity. Qed.

(** ** Admission *)

(** *** Keys without a limiter *)

Lemma inv_miss_step l key s lab s' :
  rateLimitImpl l key = Found None →
  inv_miss s → step l key s lab s' → inv_miss s'.
Proof.
  intros Hmiss [Htask Hret] Hstep.
  destruct Hstep; unfold inv_miss; simpl; split; try naive_solver congruence.
Qed.

Lemma inv_live_step l key s lab s' :
  lab ≠ LCancel → inv_live s → step l key s lab s' → inv_live s'.
Proof.
  intros Hlab [Hctx Hret] Hstep.
  destruct Hstep; unfold inv_live; simpl; split; try naive_solver congruence.
Qed.

Lemma inv_tokens_step l key tokens s lab s' :
  rateLimitImpl l key = Found None →
  (∀ impl, lab ≠ LRefill impl) →
  inv_miss s ∧ inv_tokens tokens s → step l key s lab s' →
  inv_miss s' ∧ inv_tokens tokens s'.
Proof.
  intros Hmiss Hlab [Hinv Htok] Hstep.
  split; [by eapply inv_miss_step|].
  destruct Hinv as [Htask _].
  destruct Hstep; unfold inv_tokens; simpl; try done.
  - naive_solver congruence.
  - by destruct (Hlab impl).
Qed.

(** C1, the claim as stated, at a concrete input: the registry of
    [ga.Addresses.Get] holds no limiter for [ga.Firewalls.Get], the context
    is cancelled already, and the [select] returns the error of the context:
    the call is not always admitted. *)
Lemma Accept_unconfigured_cancelled_not_admitted :
  unconfigured (Some addressesRegistry) (firewallsGetOf "my-project")
  ∧ ¬ always_admitted (Some addressesRegistry) (firewallsGetOf "my-project")
        (Some context.Canceled) ∅.
Proof.
  split; [by right|].
  intros Hadm.
  specialize (Hadm [LCaller]
                (set_caller (start (Some context.Canceled) ∅)
                            (CReturned (Some context.Canceled)))
                (Some context.Canceled)).
  discriminate Hadm; [|done].
  eapply exec_cons; [|apply exec_nil].
  by apply step_select_done.
Qed.

(** C1, amended. For a key that the map of a registry does not hold, the
    task never waits in a limiter, never panics and takes no token, and the
    call returns [nil] or the error of the done context: [nil] always when
    the context is not done and is not cancelled meanwhile. The call can
    return [nil] as soon as the task has closed the channel; when the
    context is done already, the [select] may as well return its error. *)
Theorem Accept_unconfigured_key r key ctx tokens :
  rateLimitImpl (Some r) key = Found None →
  (∀ tr s,
      Accept (Some r) ctx key tokens tr s →
      (∀ impl, st_task s ≠ TAccept impl) ∧ st_task s ≠ TPanic
      ∧ (∀ e, st_caller s = CReturned (Some e) → st_ctx s = Some e)
      ∧ (ctx = None → LCancel ∉ tr →
         ∀ err, st_caller s = CReturned err → err = None)
      ∧ ((∀ impl, LRefill impl ∉ tr) → st_tokens s = tokens))
  ∧ (∃ s, Accept (Some r) ctx key tokens [LTask; LTask; LCaller] s
          ∧ st_caller s = CReturned None ∧ st_tokens s = tokens)
  ∧ (∀ e, ctx = Some e →
          ∃ s, Accept (Some r) ctx key tokens [LCaller] s
               ∧ st_caller s = CReturned (Some e)).
Proof.
  intros Hmiss. split_and!.
  - intros tr s Hexec.
    assert (inv_miss (start ctx tokens)) as Hinit.
    { split; [by left|done]. }
    assert (inv_miss s) as [Htask Hret].
    { eapply exec_invariant_all; [|exact Hexec|exact Hinit].
      intros s0 lab s1. by apply inv_miss_step. }
    split_and!; [naive_solver congruence|naive_solver congruence|done| |].
    + intros -> Hcancel.
      assert (Forall (λ lab, lab ≠ LCancel) tr) as Hlabs.
      { apply Forall_forall. intros lab Hin ->. done. }
      assert (inv_live (start None tokens)) as Hlive0 by done.
      destruct (exec_invariant _ _ _ inv_live
                  (λ s0 lab s1 Hlab, inv_live_step _ _ s0 lab s1 Hlab)
                  _ _ _ Hexec Hlabs Hlive0) as [_ Hlive].
      done.
    + intros Hrefill.
      assert (Forall (λ lab, ∀ impl, lab ≠ LRefill impl) tr) as Hlabs.
      { apply Forall_forall. intros lab Hin impl ->. by apply (Hrefill impl). }
      assert (inv_miss (start ctx tokens) ∧ inv_tokens tokens (start ctx tokens))
        as Htok0 by done.
      destruct (exec_invariant _ _ _ (λ s0, inv_miss s0 ∧ inv_tokens tokens s0)
                  (λ s0 lab s1 Hlab, inv_tokens_step _ _ tokens s0 lab s1 Hmiss Hlab)
                  _ _ _ Hexec Hlabs Htok0) as [_ Htok].
      done.
  - eexists. split_and!.
    + eapply exec_cons; [by apply step_lookup_nil|].
      eapply exec_cons; [by apply step_close|].
      eapply exec_cons; [by apply step_select_ch|].
      apply exec_nil.
    + done.
    + done.
  - intros e ->. eexists. split.
    + eapply exec_cons; [by apply step_select_done|]. apply exec_nil.
    + done.
Qed.

Lemma Accept_unconfigured_key_witness :
  rateLimitImpl (Some addressesRegistry) (firewallsGetOf "my-project") = Found None
  ∧ (∃ s, Accept (Some addressesRegistry) (Some context.Canceled)
                 (firewallsGetOf "my-project") ∅ [LTask; LTask; LCaller] s
          ∧ st_caller s = CReturned None ∧ st_tokens s = ∅)
  ∧ (∃ s, Accept (Some addressesRegistry) (Some context.Canceled)
                 (firewallsGetOf "my-project") ∅ [LCaller] s
          ∧ st_caller s = CReturned (Some context.Canceled)).
Proof.
  split; [reflexivity|].
  destruct (Accept_unconfigured_key addressesRegistry (firewallsGetOf "my-project")
              (Some context.Canceled) ∅ eq_refl) as (_ & Hnil & Herr).
  split; [exact Hnil|]. exact (Herr context.Canceled eq_refl).
Defined.

(** *** Keys with an exhausted limiter *)

Lemma inv_exhausted_step l key impl e s lab s' :
  rateLimitImpl l key = Found (Some impl) →
  lab ≠ LRefill impl →
  inv_exhausted impl e s → step l key s lab s' → inv_exhausted impl e s'.
Proof.
  intros Himpl Hlab (Hch & Htask & Htok & Hctx & Hret) Hstep.
  destruct Hstep; unfold inv_exhausted; simpl;
    try (split_and!; naive_solver congruence).
  split_and!; try done.
  rewrite lookup_insert_ne; [done|]. intros ->. done.
Qed.

(** C2. The key has a limiter whose bucket holds no token and gets none,
    and the context is done already with error [e]. Then, wherever the call
    stands, the task has not got through (the channel is open, the task is
    at the lookup or waits in the limiter), the caller can leave the
    [select] at once with [e], and whatever the call returns is [e]. *)
Theorem Accept_exhausted_context_done l key impl e tokens tr s :
  rateLimitImpl l key = Found (Some impl) →
  tokens !! impl = Some 0%nat →
  Accept l (Some e) key tokens tr s →
  LRefill impl ∉ tr →
  st_ch s = false
  ∧ (st_task s = TLookup ∨ st_task s = TAccept impl)
  ∧ (∀ err, st_caller s = CReturned err → err = Some e)
  ∧ (st_caller s = CSelect →
     ∃ s', step l key s LCaller s' ∧ st_caller s' = CReturned (Some e)).
Proof.
  intros Himpl Htok Hexec Hrefill.
  assert (Forall (λ lab, lab ≠ LRefill impl) tr) as Hlabs.
  { apply Forall_forall. intros lab Hin ->. done. }
  assert (inv_exhausted impl e (start (Some e) tokens)) as Hinit.
  { unfold inv_exhausted. simpl. split_and!; [done|by left|done|done|done]. }
  destruct (exec_invariant _ _ _ (inv_exhausted impl e)
              (λ s0 lab s1 Hlab, inv_exhausted_step _ _ impl e s0 lab s1 Himpl Hlab)
              _ _ _ Hexec Hlabs Hinit) as (Hch & Htask & _ & Hctx & Hret).
  split_and!; [done|done|done|].
  intros Hsel. exists (set_caller s (CReturned (Some e))). split; [|reflexivity].
  apply step_select_done; [done| |done].
  destruct Htask as [-> | ->]; done.
Qed.

Lemma Accept_exhausted_context_done_witness :
  rateLimitImpl (Some addressesRegistry) (addressesGetOf "my-project")
  = Found (Some 0%nat)
  ∧ ∃ s, Accept (Some addressesRegistry) (Some context.DeadlineExceeded)
                (addressesGetOf "my-project") {[ 0%nat := 0%nat ]}
                [LTask; LCaller] s
         ∧ st_caller s = CReturned (Some context.DeadlineExceeded)
         ∧ st_task s = TAccept 0%nat
         ∧ st_ch s = false.
Proof.
  split; [reflexivity|].
  assert (Accept (Some addressesRegistry) (Some context.DeadlineExceeded)
            (addressesGetOf "my-project") {[ 0%nat := 0%nat ]}
            [LTask; LCaller]
            (set_caller
               (set_task (start (Some context.DeadlineExceeded) {[ 0%nat := 0%nat ]})
                         (TAccept 0%nat))
               (CReturned (Some context.DeadlineExceeded)))) as Hexec.
  { eapply exec_cons; [by apply step_lookup_impl|].
    eapply exec_cons; [by apply step_select_done|].
    apply exec_nil. }
  eexists. split; [exact Hexec|].
  assert (({[ 0%nat := 0%nat ]} : gmap nat nat) !! 0%nat = Some 0%nat) as Htok
    by (vm_compute; reflexivity).
  destruct (Accept_exhausted_context_done
              (Some addressesRegistry) (addressesGetOf "my-project") 0%nat
              context.DeadlineExceeded {[ 0%nat := 0%nat ]} _ _
              eq_refl Htok Hexec) as (Hch & Htask & Hret & _).
  { intros Hin. apply list_elem_of_In in Hin. simpl in Hin.
    destruct Hin as [Hin|[Hin|[]]]; discriminate Hin. }
  split_and!; [|reflexivity|exact Hch].
  exact (f_equal CReturned (Hret (Some context.DeadlineExceeded) eq_refl)).
Defined.

(** *** The absent registry *)

Lemma inv_nil_step key s lab s' :
  inv_nil s → step None key s lab s' → inv_nil s'.
Proof.
  intros (Hch & Hret & Htask) Hstep.
  destruct Hstep; unfold inv_nil; simpl; split_and!;
    try done; try (simplify_eq; fail); naive_solver congruence.
Qed.

(** C10. The registry that [NewGCERateLimiter] returns for no spec is
    [nil]; on it the lookup of the task dereferences [nil], so the one step
    the task has is the panic, the channel is never closed, and the call
    never returns [nil]. *)
Theorem Accept_nil_receiver_panics key ctx tokens h :
  NewGCERateLimiter [] h = Returns (None, None) h
  ∧ rateLimitImpl None key = NilDereference
  ∧ (∃ s, step None key (start ctx tokens) LTask s ∧ st_task s = TPanic)
  ∧ (∀ s, step None key (start ctx tokens) LTask s → st_task s = TPanic)
  ∧ (∀ tr s, Accept None ctx key tokens tr s →
             st_ch s = false ∧ st_caller s ≠ CReturned None
             ∧ (st_task s = TLookup ∨ st_task s = TPanic)).
Proof.
  split_and!.
  - reflexivity.
  - reflexivity.
  - eexists. split; [by apply step_lookup_panic|done].
  - intros s Hstep. inversion Hstep; simplify_eq; done.
  - intros tr s Hexec.
    apply (exec_invariant_all None key inv_nil (inv_nil_step key) _ _ _ Hexec).
    unfold inv_nil. simpl. split_and!; [done|done|by left].
Qed.

Lemma Accept_nil_receiver_panics_witness :
  Accept None None (addressesGetOf "my-project") ∅ [LTask]
       (set_task (start None ∅) TPanic)
  ∧ st_ch (set_task (start None ∅) TPanic) = false.
Proof.
  assert (Accept None None (addressesGetOf "my-project") ∅ [LTask]
               (set_task (start None ∅) TPanic)) as Hexec.
  { eapply exec_cons; [by apply step_lookup_panic|apply exec_nil]. }
  split; [exact Hexec|].
  destruct (Accept_nil_receiver_panics (addressesGetOf "my-project") None ∅ [])
    as (_ & _ & _ & _ & Hinv).
  exact (proj1 (Hinv _ _ Hexec)).
Defined.

(** ** Limiter selection *)

Lemma step_same_limiter l key1 key2 s lab s' :
  rateLimitImpl l key1 = rateLimitImpl l key2 →
  step l key1 s lab s' → step l key2 s lab s'.
Proof.
  intros Heq Hstep.
  destruct Hstep; try (by constructor); econstructor; congruence.
Qed.

Lemma exec_same_limiter l key1 key2 s tr s' :
  rateLimitImpl l key1 = rateLimitImpl l key2 →
  exec l key1 s tr s' → exec l key2 s tr s'.
Proof.
  intros Heq Hexec. induction Hexec as [|s lab s1 tr s2 Hstep _ IH].
  - apply exec_nil.
  - eapply exec_cons; [|exact IH]. by apply (step_same_limiter l key1).
Qed.

(** C3. Keys that agree on version, service and operation select the same
    limiter, whatever their project, and the calls of [Accept] with them
    take the same steps. *)
Theorem rateLimitImpl_ignores_ProjectID l key1 key2 :
  cloud.Version key1 = cloud.Version key2 →
  cloud.Service key1 = cloud.Service key2 →
  cloud.Operation key1 = cloud.Operation key2 →
  rateLimitImpl l key1 = rateLimitImpl l key2
  ∧ (∀ ctx tokens tr s,
        Accept l ctx key1 tokens tr s ↔ Accept l ctx key2 tokens tr s).
Proof.
  intros Hv Hs Ho.
  assert (rateLimitImpl l key1 = rateLimitImpl l key2) as Heq.
  { unfold rateLimitImpl. by rewrite Hv, Hs, Ho. }
  split; [done|].
  intros ctx tokens tr s. unfold Accept.
  split; apply exec_same_limiter; done.
Qed.

Lemma rateLimitImpl_ignores_ProjectID_witness :
  rateLimitImpl (Some addressesRegistry) (addressesGetOf "project-a")
  = rateLimitImpl (Some addressesRegistry) (addressesGetOf "project-b").
Proof.
  exact (proj1 (rateLimitImpl_ignores_ProjectID (Some addressesRegistry)
                  (addressesGetOf "project-a") (addressesGetOf "project-b")
                  eq_refl eq_refl eq_refl)).
Defined.

Example rateLimitImpl_addresses :
  rateLimitImpl (Some addressesRegistry) (addressesGetOf "project-a")
  = Found (Some 0%nat).
Proof. reflexivity. Qed.

(** ** Construction of the registry *)

(** The helper above, with the map of the registry itself. *)
Lemma NewGCERateLimiter_wellFormed_dom specs h :
  Forall (λ spec, is_Some (wellFormedSpec spec)) specs →
  let parsed := omap wellFormedSpec specs in
  ∃ l,
    NewGCERateLimiter specs h = Returns (l, None) (h ++ parsed.*2)
    ∧ configured l (h ++ parsed.*2) = foldl register ∅ parsed
    ∧ (l = None ↔ specs = [])
    ∧ (∀ r, l = Some r → dom (rateLimitImpls r) = list_to_set parsed.*1).
Proof.
  intros Hwf parsed.
  destruct (NewGCERateLimiter_wellFormed specs h Hwf) as (l & Hrun & Hview & Hnil).
  fold parsed in Hrun, Hview.
  exists l. split_and!; [done|done|done|].
  intros r ->.
  destruct (loop_wellFormed specs ∅ h Hwf (allocated_empty h))
    as (m' & Hloop & Hm' & _).
  fold parsed in Hloop, Hm'.
  unfold NewGCERateLimiter, mbind, M_bind in Hrun. rewrite Hloop in Hrun.
  cbn beta iota in Hrun.
  destruct (size m' =? 0)%nat; [discriminate Hrun|].
  injection Hrun as <-.
  cbn [rateLimitImpls].
  rewrite <- (configured_dom m' _ Hm'), Hview, foldl_register_dom.
  by rewrite dom_empty_L, (right_id_L ∅ (∪)).
Qed.

(** C4. When every spec is well-formed, construction returns no error, the
    registry holds a limiter for exactly the keys of the specs, and the
    limiter of a key is the one that the last spec naming the key asks
    for. *)
Theorem NewGCERateLimiter_one_limiter_per_key specs h :
  Forall (λ spec, is_Some (wellFormedSpec spec)) specs →
  let parsed := omap wellFormedSpec specs in
  ∃ l h',
    NewGCERateLimiter specs h = Returns (l, None) h'
    ∧ (l = None ↔ specs = [])
    ∧ (∀ r, l = Some r → dom (rateLimitImpls r) = list_to_set parsed.*1)
    ∧ dom (configured l h') = list_to_set parsed.*1
    ∧ (∀ i key lim,
          parsed !! i = Some (key, lim) →
          (∀ j lim', (i < j)%nat → parsed !! j ≠ Some (key, lim')) →
          configured l h' !! key = Some lim).
Proof.
  intros Hwf parsed.
  destruct (NewGCERateLimiter_wellFormed_dom specs h Hwf)
    as (l & Hrun & Hview & Hnil & Hdom).
  fold parsed in Hrun, Hview, Hdom.
  exists l, (h ++ parsed.*2). split_and!; [done|done|done| |].
  - rewrite Hview, foldl_register_dom.
    by rewrite dom_empty_L, (right_id_L ∅ (∪)).
  - intros i key lim Hi Hlast. rewrite Hview.
    by apply (foldl_register_last parsed ∅ i).
Qed.

Lemma NewGCERateLimiter_one_limiter_per_key_witness :
  Forall (λ spec, is_Some (wellFormedSpec spec))
         ["ga.Addresses.Get,qps,1.5,5"; "ga.Addresses.Get,qps,3,10"]
  ∧ ∃ l h',
      NewGCERateLimiter ["ga.Addresses.Get,qps,1.5,5"; "ga.Addresses.Get,qps,3,10"] []
      = Returns (l, None) h'
      ∧ configured l h' !! addressesGet
        = Some {| flowcontrol.qps := S754_finite false 12582912 (-22);
                  flowcontrol.burst := 10 |}.
Proof.
  assert (Forall (λ spec, is_Some (wellFormedSpec spec))
                 ["ga.Addresses.Get,qps,1.5,5"; "ga.Addresses.Get,qps,3,10"]) as Hwf.
  { repeat constructor; vm_compute; eauto. }
  split; [exact Hwf|].
  destruct (NewGCERateLimiter_one_limiter_per_key _ [] Hwf)
    as (l & h' & Hrun & _ & _ & _ & Hlast).
  exists l, h'. split; [exact Hrun|].
  apply (Hlast 1%nat).
  - vm_compute. reflexivity.
  - intros [|[|[|j]]] lim' Hj; [lia|lia| |]; vm_compute; discriminate.
Defined.

(** The fourth scenario of the specification, computed. *)
Example NewGCERateLimiter_duplicate_key :
  NewGCERateLimiter ["ga.Addresses.Get,qps,1.5,5"; "ga.Addresses.Get,qps,3,10"] []
  = Returns (Some {| rateLimitImpls := {[ addressesGet := Some 1%nat ]} |}, None)
            [{| flowcontrol.qps := S754_finite false 12582912 (-23);
                flowcontrol.burst := 5 |};
             {| flowcontrol.qps := S754_finite false 12582912 (-22);
                flowcontrol.burst := 10 |}].
Proof. vm_compute. reflexivity. Qed.

(** C9. Well-formed specs with pairwise distinct keys configure the same
    limiters in whatever order they come. *)
Theorem NewGCERateLimiter_order_irrelevant specs1 specs2 h1 h2 :
  Forall (λ spec, is_Some (wellFormedSpec spec)) specs1 →
  NoDup (omap wellFormedSpec specs1).*1 →
  specs1 ≡ₚ specs2 →
  ∃ l1 h1' l2 h2',
    NewGCERateLimiter specs1 h1 = Returns (l1, None) h1'
    ∧ NewGCERateLimiter specs2 h2 = Returns (l2, None) h2'
    ∧ configured l1 h1' = configured l2 h2'.
Proof.
  intros Hwf1 Hnodup Hperm.
  assert (Forall (λ spec, is_Some (wellFormedSpec spec)) specs2) as Hwf2.
  { by rewrite <- Hperm. }
  destruct (NewGCERateLimiter_wellFormed specs1 h1 Hwf1) as (l1 & Hrun1 & Hview1 & _).
  destruct (NewGCERateLimiter_wellFormed specs2 h2 Hwf2) as (l2 & Hrun2 & Hview2 & _).
  eexists l1, _, l2, _. split_and!; [exact Hrun1|exact Hrun2|].
  rewrite Hview1, Hview2, !foldl_register_reverse. f_equal.
  apply list_to_map_proper.
  - by rewrite fmap_reverse, reverse_Permutation.
  - by rewrite !reverse_Permutation, Hperm.
Qed.

Lemma NewGCERateLimiter_order_irrelevant_witness :
  ∃ l1 h1' l2 h2',
    NewGCERateLimiter ["ga.Addresses.Get,qps,1.5,5"; "ga.Firewalls.Get,qps,3,10"] []
    = Returns (l1, None) h1'
    ∧ NewGCERateLimiter ["ga.Firewalls.Get,qps,3,10"; "ga.Addresses.Get,qps,1.5,5"] []
      = Returns (l2, None) h2'
    ∧ configured l1 h1' = configured l2 h2'.
Proof.
  apply NewGCERateLimiter_order_irrelevant.
  - repeat constructor; vm_compute; eauto.
  - vm_compute. repeat constructor; rewrite ?list_elem_of_In; simpl;
      intuition discriminate.
  - apply Permutation_swap.
Defined.

(** ** The parameters of a [qps] limiter *)

(** What [constructRateLimitImpl] makes of the rate: rejected when it does
    not parse or compares at most zero, accepted when it is positive. *)
Lemma constructRateLimitImpl_rate (rate burst : string) h :
  let '(q, rateErr) := strconv.ParseFloat rate 32 in
  (rateErr ≠ None ∨ float_le_zero q = true →
   constructRateLimitImpl ["qps"; rate; burst] h
   = Returns (None, Some (ErrQPSArg "qps" rate)) h)
  ∧ (rateErr = None → float_pos q = true →
     ∀ n, strconv.Atoi burst = (n, None) →
          constructRateLimitImpl ["qps"; rate; burst] h
          = Returns (Some (length h), None)
                    (h ++ [{| flowcontrol.qps := float32 q; flowcontrol.burst := n |}])).
Proof.
  unfold constructRateLimitImpl. simpl.
  destruct (strconv.ParseFloat rate 32) as [q rateErr].
  split.
  - intros [Herr|Hle].
    + by rewrite (bool_decide_eq_true_2 _ Herr).
    + rewrite Hle. by rewrite orb_true_r.
  - intros -> Hpos n Hn. rewrite (float_pos_not_le_zero _ Hpos), Hn. done.
Qed.

(** C5, at the rate [NaN]. [ParseFloat] returns NaN without error, NaN does
    not compare at most zero, and construction succeeds with a limiter whose
    rate is NaN, which is not greater than zero. *)
Theorem NewGCERateLimiter_accepts_NaN_rate :
  strconv.ParseFloat "NaN" 32 = (S754_nan, None)
  ∧ float_pos S754_nan = false
  ∧ NewGCERateLimiter ["ga.Addresses.Get,qps,NaN,5"] []
    = Returns (Some addressesRegistry, None)
              [{| flowcontrol.qps := S754_nan; flowcontrol.burst := 5 |}].
Proof. split_and!; vm_compute; reflexivity. Qed.

(** The second scenario of the specification: the rate zero is rejected. *)
Example NewGCERateLimiter_zero_rate :
  NewGCERateLimiter ["ga.Addresses.Get,qps,0,5"] []
  = Returns (None, Some (ErrQPSArg "qps" "0")) [].
Proof. vm_compute. reflexivity. Qed.

(** C6. A [qps] spec with a valid key and a positive rate: a burst that
    parses as an integer, of whatever sign, is the burst of the limiter
    made; a burst that does not parse is a configuration error. *)
Theorem NewGCERateLimiter_burst
    (spec keyPart version service operation rate burst : string) q h :
  strings.Split spec "," = [keyPart; "qps"; rate; burst] →
  strings.Split keyPart "." = [version; service; operation] →
  strconv.ParseFloat rate 32 = (q, None) →
  float_pos q = true →
  match strconv.Atoi burst with
  | (n, None) =>
      NewGCERateLimiter [spec] h
      = Returns (Some {| rateLimitImpls :=
                           <[ {| cloud.ProjectID := "";
                                 cloud.Operation := operation;
                                 cloud.Version := version;
                                 cloud.Service := service |}
                              := Some (length h) ]> ∅ |}, None)
                (h ++ [{| flowcontrol.qps := float32 q; flowcontrol.burst := n |}])
  | (_, Some _) =>
      NewGCERateLimiter [spec] h = Returns (None, Some (ErrBurstArg "qps" burst)) h
  end.
Proof.
  intros Hspec Hkey Hrate Hpos.
  destruct (strconv.Atoi burst) as [n [burstErr|]] eqn:Hburst.
  - assert (configError spec = Some (ErrBurstArg "qps" burst)) as Herr.
    { unfold configError. rewrite Hspec, Hkey, Hrate, Hburst. simpl.
      by rewrite (float_pos_not_le_zero _ Hpos). }
    unfold NewGCERateLimiter, mbind, M_bind.
    by rewrite (loop_cons_error _ _ _ _ _ Herr).
  - unfold NewGCERateLimiter, mbind, M_bind.
    erewrite loop_cons_wellFormed.
    2:{ unfold wellFormedSpec. rewrite Hspec, Hkey, Hrate, Hburst, Hpos. done. }
    cbn [NewGCERateLimiter_loop mret M_ret].
    by rewrite map_size_insert_None, Nat.eqb_sym by apply lookup_empty.
Qed.

Lemma NewGCERateLimiter_burst_witness :
  NewGCERateLimiter ["ga.Addresses.Get,qps,1.5,-3"] []
  = Returns (Some addressesRegistry, None)
            [{| flowcontrol.qps := float32 (S754_finite false 12582912 (-23));
                flowcontrol.burst := -3 |}].
Proof.
  exact (NewGCERateLimiter_burst "ga.Addresses.Get,qps,1.5,-3" "ga.Addresses.Get"
           "ga" "Addresses" "Get" "1.5" "-3" (S754_finite false 12582912 (-23)) []
           eq_refl eq_refl eq_refl eq_refl).
Defined.

Example NewGCERateLimiter_zero_burst :
  NewGCERateLimiter ["ga.Addresses.Get,qps,1.5,0"] []
  = Returns (Some addressesRegistry, None)
            [{| flowcontrol.qps := S754_finite false 12582912 (-23);
                flowcontrol.burst := 0 |}].
Proof. vm_compute. reflexivity. Qed.

Example NewGCERateLimiter_fractional_burst :
  NewGCERateLimiter ["ga.Addresses.Get,qps,1.5,5.5"] []
  = Returns (None, Some (ErrBurstArg "qps" "5.5")) [].
Proof. vm_compute. reflexivity. Qed.

(** ** All or nothing *)

Lemma first_malformed specs :
  Exists (λ spec, is_Some (configError spec)) specs →
  ∃ pre bad post e,
    specs = pre ++ bad :: post
    ∧ Forall (λ spec, configError spec = None) pre
    ∧ configError bad = Some e.
Proof.
  induction specs as [|spec specs IH]; intros Hex; [by apply Exists_nil in Hex|].
  destruct (configError spec) as [e|] eqn:Hspec.
  - exists [], spec, specs, e. done.
  - apply Exists_cons in Hex as [[e He]|Hex]; [congruence|].
    destruct (IH Hex) as (pre & bad & post & e & -> & Hpre & Hbad).
    exists (spec :: pre), bad, post, e. split_and!; [done| |done].
    by constructor.
Qed.

Lemma loop_first_error pre bad post e m h :
  Forall (λ spec, configError spec = None) pre →
  configError bad = Some e →
  ∃ h', NewGCERateLimiter_loop (pre ++ bad :: post) m h = Returns (None, Some e) h'.
Proof.
  intros Hpre Hbad. revert m h.
  induction Hpre as [|spec pre Hspec _ IH]; intros m h.
  - exists h. by apply loop_cons_error.
  - rewrite <- app_comm_cons.
    destruct (loop_cons_ok spec (pre ++ bad :: post) m h Hspec) as (key & lim & ->).
    apply IH.
Qed.

(** Construction returns, whatever the specs: the indexing in the loop and
    in [constructRateLimitImpl] is guarded by the length checks. *)
Lemma NewGCERateLimiter_returns specs h :
  ∃ r h', NewGCERateLimiter specs h = Returns r h'.
Proof.
  assert (∀ m, ∃ r h', NewGCERateLimiter_loop specs m h = Returns r h') as Hloop.
  { revert h. induction specs as [|spec specs IH]; intros h m.
    - by eexists _, _.
    - destruct (configError spec) as [e|] eqn:Hspec.
      + rewrite (loop_cons_error _ _ _ _ _ Hspec). by eexists _, _.
      + destruct (loop_cons_ok spec specs m h Hspec) as (key & lim & ->).
        apply IH. }
  destruct (Hloop ∅) as ([[m|] err] & h' & Hrun);
    unfold NewGCERateLimiter, mbind, M_bind; rewrite Hrun; cbn beta iota.
  - destruct (size m =? 0)%nat; by eexists _, _.
  - by eexists _, _.
Qed.

(** What the code does: when it rejects some spec, construction returns the
    error of the first spec it rejects, in input order, and no registry. *)
Theorem NewGCERateLimiter_first_error specs h :
  Exists (λ spec, is_Some (configError spec)) specs →
  ∃ pre bad post e h',
    specs = pre ++ bad :: post
    ∧ Forall (λ spec, configError spec = None) pre
    ∧ configError bad = Some e
    ∧ NewGCERateLimiter specs h = Returns (None, Some e) h'.
Proof.
  intros Hex.
  destruct (first_malformed specs Hex) as (pre & bad & post & e & -> & Hpre & Hbad).
  destruct (loop_first_error pre bad post e ∅ h Hpre Hbad) as [h' Hloop].
  exists pre, bad, post, e, h'. split_and!; [done|done|done|].
  unfold NewGCERateLimiter, mbind, M_bind. by rewrite Hloop.
Qed.

Lemma NewGCERateLimiter_first_error_witness :
  ∃ pre bad post e h',
    ["ga.Addresses.Get,qps,1.5,5"; "gaFirewalls.Get,qps,1.5,5"; "ga.Addresses.Get,foo,1.5,5"]
    = pre ++ bad :: post
    ∧ Forall (λ spec, configError spec = None) pre
    ∧ configError bad = Some e
    ∧ NewGCERateLimiter
        ["ga.Addresses.Get,qps,1.5,5"; "gaFirewalls.Get,qps,1.5,5"; "ga.Addresses.Get,foo,1.5,5"]
        []
      = Returns (None, Some e) h'.
Proof.
  apply NewGCERateLimiter_first_error.
  apply Exists_cons_tl, Exists_cons_hd. vm_compute. eauto.
Defined.

Example NewGCERateLimiter_first_error_computed :
  NewGCERateLimiter
    ["ga.Addresses.Get,qps,1.5,5"; "gaFirewalls.Get,qps,1.5,5"; "ga.Addresses.Get,foo,1.5,5"]
    []
  = Returns (None, Some (ErrKeyFormat "gaFirewalls.Get"))
            [{| flowcontrol.qps := S754_finite false 12582912 (-23);
                flowcontrol.burst := 5 |}].
Proof. vm_compute. reflexivity. Qed.

(** ** No spec *)

(** C8. For no spec, and whenever the loop ends with an empty map,
    construction returns neither a registry nor an error; the loop ends
    with an empty map for no other input than the empty list. *)
Theorem NewGCERateLimiter_empty :
  (∀ h, NewGCERateLimiter [] h = Returns (None, None) h)
  ∧ (∀ specs h m h',
        NewGCERateLimiter_loop specs ∅ h = Returns (Some m, None) h' →
        size m = 0%nat →
        NewGCERateLimiter specs h = Returns (None, None) h' ∧ specs = []).
Proof.
  split; [done|].
  intros specs h m h' Hloop Hsize.
  split.
  - unfold NewGCERateLimiter, mbind, M_bind. rewrite Hloop. cbn beta iota.
    by rewrite Hsize.
  - destruct specs as [|spec specs]; [done|]. exfalso.
    destruct (configError spec) as [e|] eqn:Hspec.
    + by rewrite (loop_cons_error _ _ _ _ _ Hspec) in Hloop.
    + destruct (loop_cons_ok spec specs ∅ h Hspec) as (key & lim & Heq).
      rewrite Heq in Hloop. clear Heq.
      apply map_size_empty_inv in Hsize. subst m.
      assert (∀ specs0 m0 h0 m1 h1,
                 NewGCERateLimiter_loop specs0 m0 h0 = Returns (Some m1, None) h1 →
                 dom m0 ⊆ dom m1) as Hgrow.
      { clear. induction specs0 as [|spec0 specs0 IH]; intros m0 h0 m1 h1 Hrun.
        - injection Hrun as <- _. done.
        - destruct (configError spec0) as [e|] eqn:Hspec0.
          + by rewrite (loop_cons_error _ _ _ _ _ Hspec0) in Hrun.
          + destruct (loop_cons_ok spec0 specs0 m0 h0 Hspec0) as (key & lim & Heq).
            rewrite Heq in Hrun. apply IH in Hrun.
            rewrite dom_insert in Hrun. set_solver. }
      apply Hgrow in Hloop. rewrite dom_insert, dom_empty in Hloop.
      set_solver.
Qed.

Lemma NewGCERateLimiter_empty_witness :
  NewGCERateLimiter [] [] = Returns (None, None) [] ∧ ([] : list string) = [].
Proof.
  exact (proj2 NewGCERateLimiter_empty [] [] ∅ [] eq_refl eq_refl).
Defined.

(** * Further properties *)

(** ** The key of a spec *)

Lemma Split_length (s : string) (sep : ascii) :
  length (strings.Split s sep) = S (countByte sep s).
Proof.
  induction s as [|c s IH]; simpl; [done|].
  destruct (Ascii.eqb c sep); simpl; [by rewrite IH|].
  destruct (strings.Split s sep) as [|piece pieces] eqn:Hs; simpl in *; done.
Qed.

(** The first piece holds no separator, and the string is the first piece,
    a separator and what the other pieces split. *)
Lemma Split_inv (s : string) (sep : ascii) piece pieces :
  strings.Split s sep = piece :: pieces →
  (sep ∉ bytes piece)
  ∧ match pieces with
    | [] => s = piece
    | _ => ∃ rest, s = piece +:+ String sep rest ∧ strings.Split rest sep = pieces
    end.
Proof.
  revert piece pieces. induction s as [|c s IH]; intros piece pieces; simpl.
  - intros [= <- <-]. split; [apply not_elem_of_nil|done].
  - destruct (Ascii.eqb_spec c sep) as [->|Hne].
    + intros [= <- <-]. split; [apply not_elem_of_nil|].
      destruct (strings.Split s sep) as [|p ps] eqn:Hs;
        [by destruct (Split_nonempty _ _ Hs)|].
      exists s. by rewrite Hs.
    + destruct (strings.Split s sep) as [|p ps] eqn:Hs;
        [by destruct (Split_nonempty _ _ Hs)|].
      intros [= <- <-]. destruct (IH p ps eq_refl) as [Hnot Hrest].
      split.
      * simpl. apply not_elem_of_cons. split; [congruence|done].
      * destruct ps as [|p' ps]; [by rewrite Hrest|].
        destruct Hrest as (rest & -> & Hrest). exists rest. done.
Qed.

(** X1. A key that [constructRateLimitKey] returns without error has an
    empty project, fields without dot, and the parameter is its version,
    service and operation joined by dots. *)
Theorem constructRateLimitKey_fields param key :
  constructRateLimitKey param = (key, None) →
  cloud.ProjectID key = ""
  ∧ param = (cloud.Version key
              +:+ String "." (cloud.Service key +:+ String "." (cloud.Operation key)))
  ∧ ("."%char ∉ bytes (cloud.Version key))
  ∧ ("."%char ∉ bytes (cloud.Service key))
  ∧ ("."%char ∉ bytes (cloud.Operation key)).
Proof.
  unfold constructRateLimitKey.
  destruct (strings.Split param ".") as [|v [|sv [|o [|]]]] eqn:Hsplit; simpl;
    try discriminate.
  intros [= <-]. simpl.
  destruct (Split_inv _ _ _ _ Hsplit) as (Hv & rest1 & -> & Hsplit1).
  destruct (Split_inv _ _ _ _ Hsplit1) as (Hsv & rest2 & -> & Hsplit2).
  destruct (Split_inv _ _ _ _ Hsplit2) as (Ho & ->).
  done.
Qed.

Lemma constructRateLimitKey_fields_witness :
  cloud.ProjectID addressesGet = ""
  ∧ "ga.Addresses.Get"
    = (cloud.Version addressesGet
       +:+ String "." (cloud.Service addressesGet
                       +:+ String "." (cloud.Operation addressesGet))).
Proof.
  destruct (constructRateLimitKey_fields "ga.Addresses.Get" addressesGet eq_refl)
    as (Hp & Hparam & _).
  exact (conj Hp Hparam).
Defined.

(** X2. Three fields without dot, joined by dots, parse to the key of
    these fields, with an empty project. *)
Theorem constructRateLimitKey_of_fields (version service operation : string) :
  "."%char ∉ bytes version → "."%char ∉ bytes service → "."%char ∉ bytes operation →
  constructRateLimitKey (version +:+ String "." (service +:+ String "." operation))
  = ({| cloud.ProjectID := ""; cloud.Operation := operation;
        cloud.Version := version; cloud.Service := service |}, None).
Proof.
  intros Hv Hs Ho. unfold constructRateLimitKey.
  by rewrite !Split_app, Split_no_sep.
Qed.

Lemma constructRateLimitKey_of_fields_witness :
  constructRateLimitKey "v1.BackendServices.Update"
  = ({| cloud.ProjectID := ""; cloud.Operation := "Update";
        cloud.Version := "v1"; cloud.Service := "BackendServices" |}, None).
Proof.
  apply (constructRateLimitKey_of_fields "v1" "BackendServices" "Update");
    rewrite list_elem_of_In; simpl; intuition discriminate.
Defined.

(** X3. [constructRateLimitKey] accepts exactly the parameters with two
    dots; any other parameter gives the zero key and the format error that
    quotes the parameter. *)
Theorem constructRateLimitKey_two_dots param :
  (countByte "." param = 2%nat ↔ (constructRateLimitKey param).2 = None)
  ∧ (countByte "." param ≠ 2%nat →
     constructRateLimitKey param = (zeroKey, Some (ErrKeyFormat param))).
Proof.
  pose proof (Split_length param ".") as Hlen.
  unfold constructRateLimitKey.
  destruct (strings.Split param ".") as [|v [|sv [|o [|]]]]; simpl in *;
    (split; [split; [intros Hc; try done; lia|intros Heq; try done; lia]
            |intros Hne; try done; lia]).
Qed.

Lemma constructRateLimitKey_two_dots_witness :
  constructRateLimitKey "gaAddresses.Get"
  = (zeroKey, Some (ErrKeyFormat "gaAddresses.Get")).
Proof.
  apply (proj2 (constructRateLimitKey_two_dots "gaAddresses.Get")).
  vm_compute. discriminate.
Defined.

(** ** The limiter of a spec *)

Lemma digitVal_nonneg (c : ascii) : strconv.isDigit c = true → 0 ≤ strconv.digitVal c.
Proof.
  unfold strconv.isDigit, strconv.digitVal. intros Hd.
  apply andb_prop in Hd as [Hlo _]. lia.
Qed.

Lemma parseDigits_nonneg (s : string) (acc un : Z) :
  0 ≤ acc → strconv.parseDigits s acc = Some un → 0 ≤ un.
Proof.
  revert acc. induction s as [|c s IH]; intros acc Hacc; simpl.
  - by intros [= <-].
  - destruct (strconv.isDigit c) eqn:Hd; [|done].
    apply IH. pose proof (digitVal_nonneg c Hd). lia.
Qed.

(** An integer that [Atoi] returns without error is in the range of [int]. *)
Lemma Atoi_fitsInt (s : string) (n : Z) : strconv.Atoi s = (n, None) → fitsInt n.
Proof.
  unfold strconv.Atoi, fitsInt, strconv.cutoff.
  destruct s as [|c s]; [done|].
  set (body := if Ascii.eqb c "+" || Ascii.eqb c "-" then s else String c s).
  destruct body as [|c' body'] eqn:Hbody; [done|].
  destruct (strconv.parseDigits (String c' body') 0) as [un|] eqn:Hun; [|done].
  apply parseDigits_nonneg in Hun; [|done].
  destruct (Ascii.eqb c "-"); simpl.
  - destruct (Z.ltb_spec (2 ^ 63) un); [done|]. intros [= <-]. lia.
  - destruct (Z.leb_spec (2 ^ 63) un); [done|]. intros [= <-]. lia.
Qed.

(** The conversion to float32 keeps a clear sign bit clear. *)
Lemma float32_signbit (x : spec_float) :
  signbit x = false → signbit (float32 x) = false.
Proof.
  destruct x as [s|s| |s m e]; try done.
  simpl. intros ->.
  unfold float32, binary_round, binary_round_aux.
  destruct (shl_align _ _ _) as [mz ez].
  destruct (shr_fexp _ _ _ _ _) as [mrs' e'].
  destruct (shr_fexp _ _ _ _ _) as [mrs'' e''].
  destruct (shr_m mrs'') as [|p|p]; simpl; try done.
  by destruct (e'' <=? 128 - 24).
Qed.

Lemma float_le_zero_signbit (x : spec_float) :
  float_le_zero x = false → signbit x = false.
Proof. by destruct x as [[]|[]| |[] m e]. Qed.

(** What the loop does with a spec that it accepts, in full. *)
Lemma loop_cons_accepted spec specs m h :
  configError spec = None →
  ∃ keyPart rate burst key q n,
    strings.Split spec "," = [keyPart; "qps"; rate; burst]
    ∧ constructRateLimitKey keyPart = (key, None)
    ∧ strconv.ParseFloat rate 32 = (q, None)
    ∧ float_le_zero q = false
    ∧ strconv.Atoi burst = (n, None)
    ∧ NewGCERateLimiter_loop (spec :: specs) m h
      = NewGCERateLimiter_loop specs (<[key := Some (length h)]> m)
          (h ++ [{| flowcontrol.qps := float32 q; flowcontrol.burst := n |}]).
Proof.
  unfold configError. cbn [NewGCERateLimiter_loop].
  destruct (strings.Split spec ",") as [|keyPart [|type implArgs]];
    try discriminate.
  cbn [length Nat.ltb Nat.leb]. unfold constructRateLimitKey.
  destruct (strings.Split keyPart ".") as [|v [|sv [|o [|]]]] eqn:Hkey;
    cbn [length Nat.eqb negb]; try discriminate.
  cbv iota. unfold mbind, M_bind, constructRateLimitImpl.
  destruct (String.eqb_spec type "qps") as [->|]; cbn [negb]; [|discriminate].
  destruct implArgs as [|rate [|burst [|]]]; try discriminate.
  destruct (strconv.ParseFloat rate 32) as [q rateErr] eqn:Hrate. cbn [fst snd].
  destruct rateErr as [rateErr|].
  { rewrite (bool_decide_eq_true_2 (Some rateErr ≠ None)) by done. done. }
  rewrite (bool_decide_eq_false_2 (None ≠ None)) by (intros Hn; by apply Hn).
  cbn [orb]. destruct (float_le_zero q) eqn:Hle; [discriminate|].
  destruct (strconv.Atoi burst) as [n burstErr] eqn:Hburst. cbn [fst snd].
  destruct burstErr as [burstErr|].
  { rewrite (bool_decide_eq_true_2 (Some burstErr ≠ None)) by done. done. }
  rewrite (bool_decide_eq_false_2 (None ≠ None)) by (intros Hn; by apply Hn).
  intros _. eexists keyPart, rate, burst, _, q, n.
  split_and!; try done. by rewrite Hkey.
Qed.

(** X4. [constructRateLimitImpl] panics on the empty slice only. When it
    returns an error the limiter is [nil] and nothing was allocated; when it
    returns no error the limiter is a new one, the only one allocated, its
    burst is in the range of [int] and its rate has no negative sign. *)
Theorem constructRateLimitImpl_allocates params h :
  match constructRateLimitImpl params h with
  | Panics => params = []
  | Returns (impl, err) h' =>
      params ≠ []
      ∧ match err with
        | Some _ => impl = None ∧ h' = h
        | None =>
            impl = Some (length h)
            ∧ ∃ lim, h' = h ++ [lim]
                     ∧ fitsInt (flowcontrol.burst lim)
                     ∧ signbit (flowcontrol.qps lim) = false
        end
  end.
Proof.
  unfold constructRateLimitImpl.
  destruct params as [|rlType implArgs]; [done|].
  destruct (String.eqb rlType "qps"); [|done].
  destruct implArgs as [|rate [|burst [|]]]; try done.
  destruct (strconv.ParseFloat rate 32) as [q rateErr].
  destruct (bool_decide (rateErr ≠ None) || float_le_zero q) eqn:Hrate; [done|].
  apply orb_false_elim in Hrate as [_ Hle].
  destruct (strconv.Atoi burst) as [n burstErr] eqn:Hburst.
  destruct burstErr as [burstErr|].
  { rewrite (bool_decide_eq_true_2 (Some burstErr ≠ None)) by done. done. }
  rewrite (bool_decide_eq_false_2 (None ≠ None)) by (intros Hn; by apply Hn).
  unfold mbind, M_bind, NewTokenBucketRateLimiter, mret, M_ret.
  split; [done|]. split; [done|]. eexists. split; [done|]. simpl. split.
  - by apply (Atoi_fitsInt burst).
  - by apply float32_signbit, float_le_zero_signbit.
Qed.

(** ** Construction and the heap *)

Lemma loop_heap specs m h :
  ∃ r err added,
    NewGCERateLimiter_loop specs m h = Returns (r, err) (h ++ added)
    ∧ (err ≠ None → r = None)
    ∧ (err = None → is_Some r ∧ length added = length specs)
    ∧ (length added ≤ length specs)%nat
    ∧ Forall (λ lim, fitsInt (flowcontrol.burst lim)
                     ∧ signbit (flowcontrol.qps lim) = false) added.
Proof.
  revert m h. induction specs as [|spec specs IH]; intros m h.
  - exists (Some m), None, []. rewrite app_nil_r. split_and!; done.
  - destruct (configError spec) as [e|] eqn:Hspec.
    + rewrite (loop_cons_error _ _ _ _ _ Hspec).
      exists None, (Some e), []. rewrite app_nil_r. split_and!; try done.
      simpl. lia.
    + destruct (loop_cons_accepted spec specs m h Hspec)
        as (keyPart & rate & burst & key & q & n & _ & _ & _ & Hle & Hburst & ->).
      destruct (IH (<[key := Some (length h)]> m)
                  (h ++ [{| flowcontrol.qps := float32 q; flowcontrol.burst := n |}]))
        as (r & err & added & Hrun & Herr & Hok & Hlen & Hall).
      exists r, err, ({| flowcontrol.qps := float32 q; flowcontrol.burst := n |} :: added).
      rewrite <- (assoc_L (++)) in Hrun. split_and!; [done|done| |simpl; lia|].
      * intros Hnone. destruct (Hok Hnone) as [Hr Hl]. split; [done|]. simpl. lia.
      * constructor; [|done]. simpl. split.
        -- by apply (Atoi_fitsInt burst).
        -- by apply float32_signbit, float_le_zero_signbit.
Qed.

(** X5. [NewGCERateLimiter] never panics. It leaves the limiters that exist
    as they are and allocates at most one limiter per spec: one for each
    spec when it returns no error. With an error it returns no registry.
    Every limiter allocated has a burst in the range of [int] and a rate
    without negative sign. *)
Theorem NewGCERateLimiter_heap specs h :
  ∃ l err added,
    NewGCERateLimiter specs h = Returns (l, err) (h ++ added)
    ∧ (err ≠ None → l = None)
    ∧ (err = None → length added = length specs)
    ∧ (length added ≤ length specs)%nat
    ∧ Forall (λ lim, fitsInt (flowcontrol.burst lim)
                     ∧ signbit (flowcontrol.qps lim) = false) added.
Proof.
  destruct (loop_heap specs ∅ h) as (r & err & added & Hrun & Herr & Hok & Hlen & Hall).
  unfold NewGCERateLimiter, mbind, M_bind. rewrite Hrun. cbn beta iota.
  destruct r as [m|].
  - destruct err as [e|]; [by specialize (Herr ltac:(done))|].
    destruct (Hok eq_refl) as [_ Hl].
    destruct (size m =? 0)%nat; eexists _, None, added; split_and!; done.
  - exists None, err, added. split_and!; try done.
    intros ->. by destruct (Hok eq_refl) as [[? ?] _].
Qed.

(** ** The specs that construction accepts *)

Lemma constructRateLimitKey_ok param key :
  constructRateLimitKey param = (key, None) →
  ∃ version service operation,
    strings.Split param "." = [version; service; operation]
    ∧ key = {| cloud.ProjectID := ""; cloud.Operation := operation;
               cloud.Version := version; cloud.Service := service |}.
Proof.
  unfold constructRateLimitKey.
  destruct (strings.Split param ".") as [|v [|sv [|o [|]]]]; simpl;
    try discriminate.
  intros [= <-]. by eexists _, _, _.
Qed.

Lemma NewGCERateLimiter_single spec h :
  (∃ l h', NewGCERateLimiter [spec] h = Returns (l, None) h') ↔ configError spec = None.
Proof.
  unfold NewGCERateLimiter, mbind, M_bind. split.
  - intros (l & h' & Hrun). destruct (configError spec) as [e|] eqn:Hspec; [|done].
    by rewrite (loop_cons_error _ _ _ _ _ Hspec) in Hrun.
  - intros Hspec. destruct (loop_cons_ok spec [] ∅ h Hspec) as (key & lim & ->).
    cbn [NewGCERateLimiter_loop mret M_ret].
    destruct (size _ =? 0)%nat; by eexists _, _.
Qed.

Lemma float_le_zero_false (q : spec_float) :
  float_le_zero q = false → float_pos q = true ∨ q = S754_nan.
Proof. destruct q as [[]|[]| |[] m e]; simpl; auto; discriminate. Qed.

(** X6. The specs that construction accepts are the well-formed specs and,
    beside them, only the specs that would be well-formed but for a rate
    that parses to NaN. *)
Theorem NewGCERateLimiter_accepts_iff spec h :
  (∃ l h', NewGCERateLimiter [spec] h = Returns (l, None) h')
  ↔ is_Some (wellFormedSpec spec)
    ∨ (∃ keyPart rate burst n,
          strings.Split spec "," = [keyPart; "qps"; rate; burst]
          ∧ countByte "." keyPart = 2%nat
          ∧ strconv.ParseFloat rate 32 = (S754_nan, None)
          ∧ strconv.Atoi burst = (n, None)).
Proof.
  rewrite NewGCERateLimiter_single. split.
  - intros Hspec.
    destruct (loop_cons_accepted spec [] ∅ h Hspec)
      as (keyPart & rate & burst & key & q & n & Hsplit & Hkey & Hrate & Hle & Hburst & _).
    destruct (constructRateLimitKey_ok _ _ Hkey) as (v & sv & o & Hdots & ->).
    destruct (float_le_zero_false q Hle) as [Hpos| ->].
    + left. unfold wellFormedSpec.
      rewrite Hsplit, Hdots, Hrate, Hburst, Hpos. simpl. by eexists.
    + right. exists keyPart, rate, burst, n. split_and!; try done.
      pose proof (Split_length keyPart ".") as Hlen. rewrite Hdots in Hlen.
      simpl in Hlen. lia.
  - intros [Hwf|(keyPart & rate & burst & n & Hsplit & Hdots & Hrate & Hburst)].
    + by apply wellFormedSpec_configError.
    + unfold configError. rewrite Hsplit, Split_length, Hdots, Hrate, Hburst. done.
Qed.

Lemma NewGCERateLimiter_accepts_iff_witness :
  is_Some (wellFormedSpec "ga.Addresses.Get,qps,1.5,5")
  ∨ (∃ keyPart rate burst n,
        strings.Split "ga.Addresses.Get,qps,1.5,5" "," = [keyPart; "qps"; rate; burst]
        ∧ countByte "." keyPart = 2%nat
        ∧ strconv.ParseFloat rate 32 = (S754_nan, None)
        ∧ strconv.Atoi burst = (n, None)).
Proof.
  apply (proj1 (NewGCERateLimiter_accepts_iff "ga.Addresses.Get,qps,1.5,5" [])).
  eexists _, _. vm_compute. reflexivity.
Defined.

(** ** The registry that construction returns *)

Lemma registryOK_insert h0 m h key lim :
  cloud.ProjectID key = "" → (h0 ≤ length h)%nat →
  registryOK h0 m h →
  registryOK h0 (<[key := Some (length h)]> m) (h ++ [lim]).
Proof.
  intros Hproj Hh0 [Hkeys Hinj]. split.
  - intros key' impl. rewrite length_app. simpl.
    destruct (decide (key = key')) as [<-|Hne].
    + rewrite lookup_insert_eq. intros [= <-]. split; [done|].
      exists (length h). split; [done|lia].
    + rewrite lookup_insert_ne by done. intros Hl.
      destruct (Hkeys _ _ Hl) as (Hp & a & -> & Ha). split; [done|].
      exists a. split; [done|lia].
  - intros key1 key2 a.
    destruct (decide (key = key1)) as [<-|Hne1];
      destruct (decide (key = key2)) as [<-|Hne2]; [done| | |].
    + rewrite lookup_insert_eq, lookup_insert_ne by done. intros [= <-] Hl.
      destruct (Hkeys _ _ Hl) as (_ & a & [= <-] & Ha). lia.
    + rewrite lookup_insert_eq, lookup_insert_ne by done. intros Hl [= <-].
      destruct (Hkeys _ _ Hl) as (_ & a & [= <-] & Ha). lia.
    + rewrite !lookup_insert_ne by done. apply Hinj.
Qed.

Lemma loop_registryOK h0 specs m h m' err h' :
  NewGCERateLimiter_loop specs m h = Returns (Some m', err) h' →
  (h0 ≤ length h)%nat → registryOK h0 m h →
  err = None ∧ registryOK h0 m' h'.
Proof.
  revert m h. induction specs as [|spec specs IH]; intros m h.
  - intros [= <- <- <-]. done.
  - destruct (configError spec) as [e|] eqn:Hspec.
    + by rewrite (loop_cons_error _ _ _ _ _ Hspec).
    + destruct (loop_cons_accepted spec specs m h Hspec)
        as (keyPart & rate & burst & key & q & n & _ & Hkey & _ & _ & _ & ->).
      destruct (constructRateLimitKey_ok _ _ Hkey) as (v & sv & o & _ & ->).
      intros Hrun Hh0 Hok. apply (IH _ _ Hrun).
      * rewrite length_app. lia.
      * by apply registryOK_insert.
Qed.

Lemma rateLimitImpl_withProject r key project :
  cloud.ProjectID key = "" →
  rateLimitImpl (Some r) (withProject key project)
  = Found (default None (rateLimitImpls r !! key)).
Proof. destruct key as [p o v sv]. simpl. by intros ->. Qed.

(** X7. A registry that [NewGCERateLimiter] returns comes without error
    and from at least one spec. Its map is not empty; the keys of the map
    have no project; each holds a limiter that this construction allocated,
    and that is the limiter [rateLimitImpl] selects for the key with any
    project filled in; no two keys share a limiter. *)
Theorem NewGCERateLimiter_registry specs h r err h' :
  NewGCERateLimiter specs h = Returns (Some r, err) h' →
  err = None ∧ specs ≠ [] ∧ rateLimitImpls r ≠ ∅
  ∧ (∀ key impl,
        rateLimitImpls r !! key = Some impl →
        cloud.ProjectID key = ""
        ∧ ∃ a : nat, impl = Some a ∧ (length h ≤ a < length h')%nat
             ∧ ∀ project, rateLimitImpl (Some r) (withProject key project) = Found (Some a))
  ∧ (∀ key1 key2 (a : nat),
        rateLimitImpls r !! key1 = Some (Some a) →
        rateLimitImpls r !! key2 = Some (Some a) → key1 = key2).
Proof.
  unfold NewGCERateLimiter, mbind, M_bind.
  destruct (NewGCERateLimiter_loop specs ∅ h) as [[[m|] err0] h0|] eqn:Hloop;
    cbn beta iota; try discriminate.
  destruct (Nat.eqb_spec (size m) 0) as [|Hsize]; [discriminate|].
  intros [= <- <- ->].
  destruct (loop_registryOK (length h) specs ∅ h m err0 h' Hloop) as [_ [Hkeys Hinj]].
  { done. }
  { split; intros ?; intros; by rewrite lookup_empty in *. }
  split_and!; [done| | | |done].
  - intros ->. injection Hloop as <- _. by rewrite map_size_empty in Hsize.
  - simpl. intros ->. by rewrite map_size_empty in Hsize.
  - cbn [rateLimitImpls]. intros key impl Hl.
    destruct (Hkeys _ _ Hl) as (Hp & a & -> & Ha).
    split; [done|]. exists a. split_and!; [done|lia|lia|].
    intros project. rewrite rateLimitImpl_withProject by done.
    cbn [rateLimitImpls]. by rewrite Hl.
Qed.

Lemma NewGCERateLimiter_registry_witness :
  rateLimitImpl (Some addressesRegistry) (withProject addressesGet "my-project")
  = Found (Some 0%nat).
Proof.
  destruct (NewGCERateLimiter_registry _ _ _ _ _ addressesRegistry_built)
    as (_ & _ & _ & Hkeys & _).
  destruct (Hkeys addressesGet (Some 0%nat)) as (_ & a & Ha & _ & Hsel).
  { vm_compute. reflexivity. }
  injection Ha as <-. apply Hsel.
Defined.

(** ** From the specs to the limiter selected *)

Lemma lastIndexOf_None key keys : key ∉ keys → lastIndexOf key keys = None.
Proof.
  induction keys as [|key' keys IH]; [done|].
  intros Hnot. apply not_elem_of_cons in Hnot as [Hne Hnot].
  simpl. rewrite IH by done. by rewrite decide_False.
Qed.

Lemma lastIndexOf_last key keys i :
  keys !! i = Some key →
  (∀ j, (i < j)%nat → keys !! j ≠ Some key) →
  lastIndexOf key keys = Some i.
Proof.
  revert i. induction keys as [|key' keys IH]; intros i; [done|].
  destruct i as [|i]; simpl.
  - intros [= ->] Hlater. rewrite lastIndexOf_None.
    + by rewrite decide_True.
    + intros Hin. apply list_elem_of_lookup in Hin as [j Hj].
      apply (Hlater (S j)); [lia|done].
  - intros Hi Hlater. rewrite (IH i); [done|done|].
    intros j Hij. apply (Hlater (S j)). lia.
Qed.

Lemma loop_wellFormed_lookup specs m h :
  Forall (λ spec, is_Some (wellFormedSpec spec)) specs →
  ∃ m',
    NewGCERateLimiter_loop specs m h
    = Returns (Some m', None) (h ++ (omap wellFormedSpec specs).*2)
    ∧ ∀ key,
        m' !! key = match lastIndexOf key (omap wellFormedSpec specs).*1 with
                    | Some i => Some (Some (length h + i)%nat)
                    | None => m !! key
                    end.
Proof.
  intros Hwf. revert m h.
  induction Hwf as [|spec specs [[key0 lim0] Hspec] _ IH]; intros m h.
  - exists m. simpl. by rewrite app_nil_r.
  - rewrite (loop_cons_wellFormed _ _ _ _ _ _ Hspec).
    cbn [omap list_omap]. rewrite Hspec. cbn [fmap list_fmap fst snd lastIndexOf].
    destruct (IH (<[key0 := Some (length h)]> m) (h ++ [lim0])) as (m' & Hrun & Hm').
    rewrite <- (assoc_L (++)) in Hrun. exists m'. split; [done|].
    intros key. rewrite Hm', length_app. simpl.
    destruct (lastIndexOf key _) as [i|]; [do 2 f_equal; lia|].
    destruct (decide (key = key0)) as [->|Hne].
    + rewrite lookup_insert_eq. do 2 f_equal. lia.
    + by rewrite lookup_insert_ne.
Qed.

(** X8. On the registry built from well-formed specs, [rateLimitImpl]
    selects for a lookup key the limiter that was allocated for the last
    spec naming its version, service and operation, with the arguments of
    that spec; for a key that no spec names it selects [nil]. *)
Theorem rateLimitImpl_after_construction specs h key :
  Forall (λ spec, is_Some (wellFormedSpec spec)) specs →
  specs ≠ [] →
  let parsed := omap wellFormedSpec specs in
  ∃ r,
    NewGCERateLimiter specs h = Returns (Some r, None) (h ++ parsed.*2)
    ∧ (withProject key "" ∉ parsed.*1 → rateLimitImpl (Some r) key = Found None)
    ∧ (∀ i lim,
          parsed !! i = Some (withProject key "", lim) →
          (∀ j lim', (i < j)%nat → parsed !! j ≠ Some (withProject key "", lim')) →
          rateLimitImpl (Some r) key = Found (Some (length h + i)%nat)
          ∧ (h ++ parsed.*2) !! (length h + i)%nat = Some lim).
Proof.
  intros Hwf Hne parsed.
  destruct (NewGCERateLimiter_wellFormed specs h Hwf) as (l & Hrun & _ & Hnil).
  destruct l as [r|]; [|by destruct Hne; apply Hnil].
  fold parsed in Hrun. exists r. split; [done|].
  destruct (loop_wellFormed_lookup specs ∅ h Hwf) as (m' & Hloop & Hm').
  fold parsed in Hloop, Hm'.
  assert (rateLimitImpls r = m') as Hr.
  { unfold NewGCERateLimiter, mbind, M_bind in Hrun. rewrite Hloop in Hrun.
    cbn beta iota in Hrun. destruct (size m' =? 0)%nat; [discriminate|].
    by injection Hrun as <-. }
  assert (∀ key0, rateLimitImpl (Some r) key0
                  = Found (default None (m' !! withProject key0 ""))) as Hsel.
  { intros key0. by rewrite <- Hr. }
  split.
  - intros Hnot. rewrite Hsel, Hm', lastIndexOf_None by done.
    by rewrite lookup_empty.
  - intros i lim Hi Hlater.
    assert (lastIndexOf (withProject key "") parsed.*1 = Some i) as Hlast.
    { apply lastIndexOf_last.
      - by rewrite list_lookup_fmap, Hi.
      - intros j Hij Hj. rewrite list_lookup_fmap in Hj.
        destruct (parsed !! j) as [[key' lim']|] eqn:Hpj; [|done].
        simpl in Hj. injection Hj as ->. by apply (Hlater j lim'). }
    split.
    + by rewrite Hsel, Hm', Hlast.
    + rewrite lookup_app_r by lia.
      replace (length h + i - length h)%nat with i by lia.
      by rewrite list_lookup_fmap, Hi.
Qed.

Lemma rateLimitImpl_after_construction_witness :
  ∃ r,
    NewGCERateLimiter ["ga.Addresses.Get,qps,1.5,5"; "ga.Addresses.Get,qps,3,10"] []
    = Returns (Some r, None)
              [{| flowcontrol.qps := S754_finite false 12582912 (-23);
                  flowcontrol.burst := 5 |};
               {| flowcontrol.qps := S754_finite false 12582912 (-22);
                  flowcontrol.burst := 10 |}]
    ∧ rateLimitImpl (Some r) (addressesGetOf "my-project") = Found (Some 1%nat).
Proof.
  assert (Forall (λ spec, is_Some (wellFormedSpec spec))
                 ["ga.Addresses.Get,qps,1.5,5"; "ga.Addresses.Get,qps,3,10"]) as Hwf.
  { repeat constructor; vm_compute; eauto. }
  destruct (rateLimitImpl_after_construction _ [] (addressesGetOf "my-project") Hwf)
    as (r & Hrun & _ & Hlast); [done|].
  exists r. split; [exact Hrun|].
  apply (Hlast 1%nat {| flowcontrol.qps := S754_finite false 12582912 (-22);
                        flowcontrol.burst := 10 |}).
  - vm_compute. reflexivity.
  - intros [|[|[|j]]] lim' Hj; [lia|lia| |]; vm_compute; discriminate.
Defined.

(** ** Lists of specs put together *)

(** The loop on [a ++ b] is the loop on [a] and then, when that ends
    without error, the loop on [b] from its map and heap. *)
Lemma loop_app a b m h :
  NewGCERateLimiter_loop (a ++ b) m h
  = match NewGCERateLimiter_loop a m h with
    | Returns (Some m1, None) h1 => NewGCERateLimiter_loop b m1 h1
    | other => other
    end.
Proof.
  revert m h. induction a as [|spec a IH]; intros m h; [done|].
  rewrite <- app_comm_cons. cbn [NewGCERateLimiter_loop].
  destruct (length (strings.Split spec ",") <? 2)%nat; [done|].
  destruct (strings.Split spec ",") as [|param0 params1]; [done|].
  destruct (constructRateLimitKey param0) as [key [e|]]; [done|].
  unfold mbind, M_bind.
  destruct (constructRateLimitImpl params1 h) as [[impl [e|]] h1|]; [done| |done].
  apply IH.
Qed.

(** X9. An error of construction stays when specs are appended: the specs
    after the first malformed one are not looked at, whatever they are. *)
Theorem NewGCERateLimiter_prefix_error a b h e h' :
  NewGCERateLimiter a h = Returns (None, Some e) h' →
  NewGCERateLimiter (a ++ b) h = Returns (None, Some e) h'.
Proof.
  unfold NewGCERateLimiter, mbind, M_bind. rewrite loop_app.
  destruct (NewGCERateLimiter_loop a ∅ h) as [[[m1|] err] h1|]; cbn beta iota.
  - destruct (size m1 =? 0)%nat; discriminate.
  - intros [= -> ->]. done.
  - discriminate.
Qed.

Lemma NewGCERateLimiter_prefix_error_witness :
  NewGCERateLimiter (["ga.Addresses.Get,qps,1.5,5"; "ga.Addresses.Get,foo,1.5,5"]
                     ++ ["ga.Firewalls.Get,qps,3,10"]) []
  = Returns (None, Some (ErrRateLimiterType "foo"))
            [{| flowcontrol.qps := S754_finite false 12582912 (-23);
                flowcontrol.burst := 5 |}].
Proof.
  apply NewGCERateLimiter_prefix_error. vm_compute. reflexivity.
Defined.

(** X10. For well-formed specs, the registry of [a ++ b] configures what
    the registry of [b] configures and, for the keys that [b] does not
    name, what the registry of [a] configures. *)
Theorem NewGCERateLimiter_app a b h :
  Forall (λ spec, is_Some (wellFormedSpec spec)) a →
  Forall (λ spec, is_Some (wellFormedSpec spec)) b →
  ∃ la ha lb hb lab hab,
    NewGCERateLimiter a h = Returns (la, None) ha
    ∧ NewGCERateLimiter b h = Returns (lb, None) hb
    ∧ NewGCERateLimiter (a ++ b) h = Returns (lab, None) hab
    ∧ configured lab hab = configured lb hb ∪ configured la ha.
Proof.
  intros Ha Hb.
  destruct (NewGCERateLimiter_wellFormed a h Ha) as (la & Hruna & Hviewa & _).
  destruct (NewGCERateLimiter_wellFormed b h Hb) as (lb & Hrunb & Hviewb & _).
  destruct (NewGCERateLimiter_wellFormed (a ++ b) h) as (lab & Hrunab & Hviewab & _).
  { by apply Forall_app. }
  eexists la, _, lb, _, lab, _. split_and!; [done|done|done|].
  rewrite Hviewa, Hviewb, Hviewab.
  rewrite omap_app, foldl_app, !foldl_register_reverse.
  by rewrite !(right_id_L ∅ (∪)).
Qed.

Lemma NewGCERateLimiter_app_witness :
  ∃ la ha lb hb lab hab,
    NewGCERateLimiter ["ga.Addresses.Get,qps,1.5,5"; "ga.Firewalls.Get,qps,1.5,5"] []
    = Returns (la, None) ha
    ∧ NewGCERateLimiter ["ga.Addresses.Get,qps,3,10"] [] = Returns (lb, None) hb
    ∧ NewGCERateLimiter
        (["ga.Addresses.Get,qps,1.5,5"; "ga.Firewalls.Get,qps,1.5,5"]
         ++ ["ga.Addresses.Get,qps,3,10"]) []
      = Returns (lab, None) hab
    ∧ configured lab hab = configured lb hb ∪ configured la ha.
Proof.
  apply NewGCERateLimiter_app; repeat constructor; vm_compute; eauto.
Defined.

(** ** What [Accept] returns *)

Lemma inv_return_step l key s lab s' :
  inv_return s → step l key s lab s' → inv_return s'.
Proof.
  intros (Hch & Hnil & Herr) Hstep.
  destruct Hstep; unfold inv_return; simpl; split_and!;
    try done; try (intros; simplify_eq; fail); naive_solver congruence.
Qed.

Lemma ctx_done_step l key e s lab s' :
  st_ctx s = Some e → step l key s lab s' → st_ctx s' = Some e.
Proof. intros Hctx Hstep. destruct Hstep; simpl; congruence. Qed.

(** X11. Whatever the registry and the key: when [Accept] has returned
    [nil], the task has finished and closed the channel; when it has
    returned an error, that is the error of the context, which is done; a
    context that is done at the call keeps its error; and with a context
    that is not done at the call and is not cancelled during it, [Accept]
    returns nothing but [nil]. *)
Theorem Accept_return_values l ctx key tokens tr s :
  Accept l ctx key tokens tr s →
  (st_caller s = CReturned None → st_ch s = true ∧ st_task s = TDone)
  ∧ (∀ e, st_caller s = CReturned (Some e) → st_ctx s = Some e)
  ∧ (∀ e, ctx = Some e → st_ctx s = Some e)
  ∧ (ctx = None → LCancel ∉ tr → ∀ err, st_caller s = CReturned err → err = None).
Proof.
  intros Hexec.
  assert (inv_return s) as (Hch & Hnil & Herr).
  { apply (exec_invariant_all l key inv_return (inv_return_step l key) _ _ _ Hexec).
    unfold inv_return. simpl. split_and!; done. }
  split_and!; [by auto|done| |].
  - intros e ->.
    apply (exec_invariant_all l key (λ s0, st_ctx s0 = Some e)
             (ctx_done_step l key e) _ _ _ Hexec).
    done.
  - intros -> Hcancel.
    assert (Forall (λ lab, lab ≠ LCancel) tr) as Hlabs.
    { apply Forall_forall. intros lab Hin ->. done. }
    assert (inv_live (start None tokens)) as Hlive0 by done.
    destruct (exec_invariant _ _ _ inv_live
                (λ s0 lab s1 Hlab, inv_live_step _ _ s0 lab s1 Hlab)
                _ _ _ Hexec Hlabs Hlive0) as [_ Hlive].
    done.
Qed.

Lemma Accept_return_values_witness :
  ∃ s, Accept (Some addressesRegistry) None (addressesGetOf "my-project")
              {[ 0%nat := 1%nat ]} [LTask; LTask; LTask; LCaller] s
       ∧ st_caller s = CReturned None
       ∧ st_ch s = true ∧ st_task s = TDone.
Proof.
  assert (Accept (Some addressesRegistry) None (addressesGetOf "my-project")
            {[ 0%nat := 1%nat ]} [LTask; LTask; LTask; LCaller]
            (set_caller
               (set_task
                  (set_ch
                     (set_task
                        (set_tokens
                           (set_task (start None {[ 0%nat := 1%nat ]}) (TAccept 0%nat))
                           (<[0%nat := 0%nat]> {[ 0%nat := 1%nat ]}))
                        TClose)
                     true)
                  TDone)
               (CReturned None))) as Hexec.
  { eapply exec_cons; [by apply step_lookup_impl|].
    eapply exec_cons; [by apply (step_accept _ _ _ 0%nat 0%nat)|].
    eapply exec_cons; [by apply step_close|].
    eapply exec_cons; [by apply step_select_ch|].
    apply exec_nil. }
  eexists. split; [exact Hexec|]. split; [reflexivity|].
  exact (proj1 (Accept_return_values _ _ _ _ _ _ Hexec) eq_refl).
Defined.

(** ** The tokens of a call *)

Lemma refills_cons a lab tr :
  refills a (lab :: tr)
  = ((if decide (lab = LRefill a) then 1 else 0) + refills a tr)%nat.
Proof.
  unfold refills. rewrite filter_cons. by destruct (decide (lab = LRefill a)).
Qed.

Lemma step_tokens l key impl a s lab s' n :
  rateLimitImpl l key = Found (Some impl) →
  inv_task impl s →
  st_tokens s !! a = Some n →
  step l key s lab s' →
  inv_task impl s'
  ∧ ∃ n', st_tokens s' !! a = Some n'
          ∧ (n' + taken impl a s'
             = n + taken impl a s + (if decide (lab = LRefill a) then 1 else 0))%nat.
Proof.
  intros Himpl Htask Hn Hstep. unfold inv_task, taken in *.
  destruct Hstep as [s Ht Hl|s Ht Hl|s impl0 Ht Hl|s impl0 n0 Ht Htok|s Ht
                    |s Hc Ht Hch|s e Hc Ht Hctx|s e Ht Hctx|s impl0 n0 Htok]; simpl.
  - congruence.
  - congruence.
  - rewrite Ht. split; [intros i [= <-]; congruence|].
    exists n. split; [done|]. destruct (decide (a = impl)); lia.
  - rewrite Ht. split; [done|].
    assert (impl0 = impl) as -> by by apply Htask.
    destruct (decide (a = impl)) as [->|Hne].
    + rewrite Htok in Hn. injection Hn as <-.
      rewrite lookup_insert_eq. exists n0. split; [done|lia].
    + rewrite lookup_insert_ne by done. exists n. split; [done|lia].
  - rewrite Ht. split; [done|]. exists n. split; [done|].
    destruct (decide (a = impl)); lia.
  - split; [done|]. exists n. split; [done|lia].
  - split; [done|]. exists n. split; [done|lia].
  - split; [done|]. exists n. split; [done|lia].
  - split; [done|].
    destruct (decide (LRefill impl0 = LRefill a)) as [[= ->]|Hne].
    + rewrite Htok in Hn. injection Hn as <-.
      rewrite lookup_insert_eq. exists (S n0). split; [done|lia].
    + rewrite lookup_insert_ne by congruence. exists n. split; [done|lia].
Qed.

Lemma exec_tokens l key impl a s tr s' n :
  rateLimitImpl l key = Found (Some impl) →
  exec l key s tr s' →
  inv_task impl s →
  st_tokens s !! a = Some n →
  ∃ n', st_tokens s' !! a = Some n'
        ∧ (n' + taken impl a s' = n + taken impl a s + refills a tr)%nat.
Proof.
  intros Himpl Hexec. revert n.
  induction Hexec as [s|s lab s1 tr s2 Hstep _ IH]; intros n Htask Hn.
  - exists n. split; [done|]. unfold refills. simpl. lia.
  - destruct (step_tokens _ _ _ a _ _ _ n Himpl Htask Hn Hstep) as (Htask1 & n1 & Hn1 & Heq1).
    destruct (IH n1 Htask1 Hn1) as (n2 & Hn2 & Heq2).
    exists n2. split; [done|]. rewrite refills_cons. lia.
Qed.

(** X12. For a key with a limiter: along a call, the bucket of every
    limiter holds what it held at the call, plus what time has put in,
    minus what the task has taken, and the task takes from the limiter of
    the key only, one token, when [impl.Accept()] returns. When [Accept] has
    returned [nil], that token has been taken. *)
Theorem Accept_takes_one_token l ctx key tokens impl tr s :
  rateLimitImpl l key = Found (Some impl) →
  Accept l ctx key tokens tr s →
  (∀ a n, tokens !! a = Some n →
          ∃ n', st_tokens s !! a = Some n'
                ∧ (n' + taken impl a s = n + refills a tr)%nat)
  ∧ (∀ a, a ≠ impl → taken impl a s = 0%nat)
  ∧ (taken impl impl s ≤ 1)%nat
  ∧ (st_caller s = CReturned None → taken impl impl s = 1%nat).
Proof.
  intros Himpl Hexec. split_and!.
  - intros a n Hn.
    destruct (exec_tokens l key impl a _ _ _ n Himpl Hexec) as (n' & Hn' & Heq);
      [by intros i|done|].
    exists n'. split; [done|].
    unfold taken in Heq at 2. simpl in Heq. destruct (decide (a = impl)); lia.
  - intros a Hne. unfold taken. by rewrite decide_False.
  - unfold taken. destruct (decide (impl = impl)); [|lia]. destruct (st_task s); lia.
  - intros Hnil.
    assert (inv_return s) as (Hch & Hret & _).
    { apply (exec_invariant_all l key inv_return (inv_return_step l key) _ _ _ Hexec).
      unfold inv_return. simpl. split_and!; done. }
    unfold taken. rewrite decide_True by done. by rewrite (Hch (Hret Hnil)).
Qed.

Lemma Accept_takes_one_token_witness :
  ∃ s, Accept (Some addressesRegistry) None (addressesGetOf "my-project")
              {[ 0%nat := 1%nat ]} [LTask; LTask; LTask; LCaller] s
       ∧ st_caller s = CReturned None
       ∧ taken 0 0 s = 1%nat.
Proof.
  assert (Accept (Some addressesRegistry) None (addressesGetOf "my-project")
            {[ 0%nat := 1%nat ]} [LTask; LTask; LTask; LCaller]
            (set_caller
               (set_task
                  (set_ch
                     (set_task
                        (set_tokens
                           (set_task (start None {[ 0%nat := 1%nat ]}) (TAccept 0%nat))
                           (<[0%nat := 0%nat]> {[ 0%nat := 1%nat ]}))
                        TClose)
                     true)
                  TDone)
               (CReturned None))) as Hexec.
  { eapply exec_cons; [by apply step_lookup_impl|].
    eapply exec_cons; [by apply (step_accept _ _ _ 0%nat 0%nat)|].
    eapply exec_cons; [by apply step_close|].
    eapply exec_cons; [by apply step_select_ch|].
    apply exec_nil. }
  eexists. split; [exact Hexec|]. split; [reflexivity|].
  destruct (Accept_takes_one_token (Some addressesRegistry) None
              (addressesGetOf "my-project") {[ 0%nat := 1%nat ]} 0%nat _ _
              eq_refl Hexec) as (_ & _ & _ & Hnil).
  exact (Hnil eq_refl).
Defined.

(** ** Waiting *)

Lemma inv_blocked_step l key impl s lab s' :
  rateLimitImpl l key = Found (Some impl) →
  lab ≠ LCancel → lab ≠ LRefill impl →
  inv_blocked impl s → step l key s lab s' → inv_blocked impl s'.
Proof.
  intros Himpl Hcancel Hrefill (Hch & Htask & Htok & Hctx & Hsel) Hstep.
  destruct Hstep; unfold inv_blocked; simpl;
    try (split_and!; naive_solver congruence).
  split_and!; try done.
  rewrite lookup_insert_ne; [done|]. intros ->. done.
Qed.

(** X13. For a key whose limiter has no token: as long as the bucket gets
    none and the context is not done, [Accept] does not return, and the
    caller has no step out of the [select]. *)
Theorem Accept_blocks l key impl tokens tr s :
  rateLimitImpl l key = Found (Some impl) →
  tokens !! impl = Some 0%nat →
  Accept l None key tokens tr s →
  LCancel ∉ tr → LRefill impl ∉ tr →
  st_caller s = CSelect ∧ st_ch s = false
  ∧ ∀ s', ¬ step l key s LCaller s'.
Proof.
  intros Himpl Htok Hexec Hcancel Hrefill.
  assert (Forall (λ lab, lab ≠ LCancel ∧ lab ≠ LRefill impl) tr) as Hlabs.
  { apply Forall_forall. intros lab Hin. split; intros ->; done. }
  assert (inv_blocked impl (start None tokens)) as Hinit.
  { unfold inv_blocked. simpl. split_and!; [done|by left|done|done|done]. }
  destruct (exec_invariant _ _ _ (inv_blocked impl)
              (λ s0 lab s1 Hlab,
                 inv_blocked_step _ _ impl s0 lab s1 Himpl (proj1 Hlab) (proj2 Hlab))
              _ _ _ Hexec Hlabs Hinit) as (Hch & _ & _ & Hctx & Hsel).
  split_and!; [done|done|].
  intros s' Hstep. inversion Hstep; congruence.
Qed.

Lemma Accept_blocks_witness :
  st_caller (set_task (start None {[ 0%nat := 0%nat ]}) (TAccept 0%nat)) = CSelect
  ∧ ∀ s', ¬ step (Some addressesRegistry) (addressesGetOf "my-project")
               (set_task (start None {[ 0%nat := 0%nat ]}) (TAccept 0%nat)) LCaller s'.
Proof.
  assert (Accept (Some addressesRegistry) None (addressesGetOf "my-project")
            {[ 0%nat := 0%nat ]} [LTask]
            (set_task (start None {[ 0%nat := 0%nat ]}) (TAccept 0%nat))) as Hexec.
  { eapply exec_cons; [by apply step_lookup_impl|apply exec_nil]. }
  assert (({[ 0%nat := 0%nat ]} : gmap nat nat) !! 0%nat = Some 0%nat) as Htok
    by (vm_compute; reflexivity).
  destruct (Accept_blocks (Some addressesRegistry) (addressesGetOf "my-project")
              0%nat {[ 0%nat := 0%nat ]} _ _ eq_refl Htok Hexec) as (Hsel & _ & Hstuck).
  - intros Hin. apply list_elem_of_In in Hin. simpl in Hin.
    destruct Hin as [Hin|[]]; discriminate Hin.
  - intros Hin. apply list_elem_of_In in Hin. simpl in Hin.
    destruct Hin as [Hin|[]]; discriminate Hin.
  - exact (conj Hsel Hstuck).
Defined.

(** X14. For a key whose limiter has a token, whatever the context:
    [Accept] can return [nil] by the lookup, the limiter, the close and the
    [select], without a step of time or of the context, and the bucket then
    holds one token less. *)
Theorem Accept_token_available l ctx key impl tokens n :
  rateLimitImpl l key = Found (Some impl) →
  tokens !! impl = Some (S n) →
  ∃ s, Accept l ctx key tokens [LTask; LTask; LTask; LCaller] s
       ∧ st_caller s = CReturned None
       ∧ st_tokens s = <[impl := n]> tokens.
Proof.
  intros Himpl Htok. eexists. split_and!.
  - eapply exec_cons; [by apply step_lookup_impl|].
    eapply exec_cons; [by apply (step_accept _ _ _ impl n)|].
    eapply exec_cons; [by apply step_close|].
    eapply exec_cons; [by apply step_select_ch|].
    apply exec_nil.
  - done.
  - done.
Qed.

Lemma Accept_token_available_witness :
  ∃ s, Accept (Some addressesRegistry) (Some context.Canceled)
              (addressesGetOf "my-project") {[ 0%nat := 5%nat ]}
              [LTask; LTask; LTask; LCaller] s
       ∧ st_caller s = CReturned None
       ∧ st_tokens s = <[0%nat := 4%nat]> {[ 0%nat := 5%nat ]}.
Proof.
  apply Accept_token_available; [reflexivity|vm_compute; reflexivity].
Defined.

(** X15. The task is not stopped when [Accept] returns the error of the
    context: for a key whose limiter has no token and a context that is
    done, the caller returns the error, and the token that the bucket gets
    afterwards goes to the task that was left behind. *)
Theorem Accept_abandoned_task_takes_token l key impl e tokens :
  rateLimitImpl l key = Found (Some impl) →
  tokens !! impl = Some 0%nat →
  ∃ s1 s2,
    Accept l (Some e) key tokens [LTask; LCaller] s1
    ∧ st_caller s1 = CReturned (Some e)
    ∧ st_task s1 = TAccept impl
    ∧ exec l key s1 [LRefill impl; LTask; LTask] s2
    ∧ st_caller s2 = CReturned (Some e)
    ∧ st_task s2 = TDone
    ∧ st_tokens s2 !! impl = Some 0%nat.
Proof.
  intros Himpl Htok. eexists _, _. split_and!.
  - eapply exec_cons; [by apply step_lookup_impl|].
    eapply exec_cons; [by apply step_select_done|].
    apply exec_nil.
  - done.
  - done.
  - eapply exec_cons; [by apply (step_refill _ _ _ impl 0%nat)|].
    eapply exec_cons.
    { apply (step_accept _ _ _ impl 0%nat); [done|]. simpl.
      by rewrite lookup_insert_eq. }
    eapply exec_cons; [by apply step_close|].
    apply exec_nil.
  - done.
  - done.
  - simpl. by rewrite lookup_insert_eq.
Qed.

Lemma Accept_abandoned_task_takes_token_witness :
  ∃ s1 s2,
    Accept (Some addressesRegistry) (Some context.DeadlineExceeded)
           (addressesGetOf "my-project") {[ 0%nat := 0%nat ]} [LTask; LCaller] s1
    ∧ st_caller s1 = CReturned (Some context.DeadlineExceeded)
    ∧ st_task s1 = TAccept 0%nat
    ∧ exec (Some addressesRegistry) (addressesGetOf "my-project") s1
           [LRefill 0%nat; LTask; LTask] s2
    ∧ st_caller s2 = CReturned (Some context.DeadlineExceeded)
    ∧ st_task s2 = TDone
    ∧ st_tokens s2 !! 0%nat = Some 0%nat.
Proof.
  apply Accept_abandoned_task_takes_token; [reflexivity|vm_compute; reflexivity].
Defined.

(** ** Malformed specs that construction accepts *)

(** The malformed specs of the specification are the specs that are not
    well-formed. *)
Lemma malformedSpec_wellFormed (spec : string) :
  malformedSpec spec = false ↔ is_Some (wellFormedSpec spec).
Proof.
  unfold malformedSpec, wellFormedSpec.
  destruct (strings.Split spec ",") as [|keyPart [|type [|rate [|burst [|]]]]];
    try (split; [discriminate|by intros [? ?]]);
    try (rewrite orb_true_r; split; [discriminate|by intros [? ?]]).
  destruct (strings.Split keyPart ".") as [|v [|sv [|o [|]]]];
    destruct (strconv.ParseFloat rate 32) as [q rateErr];
    destruct (strconv.Atoi burst) as [n burstErr]; simpl;
    destruct (String.eqb type "qps"), (bool_decide (rateErr = None)),
      (float_pos q), (bool_decide (burstErr = None)); simpl;
    first [split; [discriminate|by intros [? ?]] | split; [by eexists|done]].
Qed.

(** The malformed specs that the code accepts all the same are those of the
    shape of a [qps] spec whose rate parses to NaN. *)
Lemma malformedSpec_accepted (spec : string) :
  malformedSpec spec = true → configError spec = None →
  ∃ keyPart rate burst n,
    strings.Split spec "," = [keyPart; "qps"; rate; burst]
    ∧ strconv.ParseFloat rate 32 = (S754_nan, None)
    ∧ strconv.Atoi burst = (n, None).
Proof.
  intros Hmal Hacc.
  destruct (loop_cons_accepted spec [] ∅ [] Hacc)
    as (keyPart & rate & burst & key & q & n & Hsplit & Hkey & Hrate & Hle & Hburst & _).
  destruct (float_le_zero_false q Hle) as [Hpos| ->].
  - destruct (constructRateLimitKey_ok _ _ Hkey) as (v & sv & o & Hdots & _).
    unfold malformedSpec in Hmal.
    rewrite Hsplit, Hdots, Hrate, Hburst in Hmal. simpl in Hmal.
    by rewrite Hpos in Hmal.
  - by exists keyPart, rate, burst, n.
Qed.

(** C7, at a malformed spec that the code accepts. The spec with the rate
    [NaN] is malformed: its rate is not a positive number. Alone it gives a
    registry and no error; followed by the spec [x] it gives the error of
    that second spec, after a limiter was made for the first: the error
    returned is not that of the first malformed spec. *)
Theorem NewGCERateLimiter_NaN_spec_not_first_error :
  malformedSpec "ga.Addresses.Get,qps,NaN,5" = true
  ∧ NewGCERateLimiter ["ga.Addresses.Get,qps,NaN,5"] []
    = Returns (Some addressesRegistry, None)
              [{| flowcontrol.qps := S754_nan; flowcontrol.burst := 5 |}]
  ∧ malformedSpec "x" = true
  ∧ NewGCERateLimiter ["ga.Addresses.Get,qps,NaN,5"; "x"] []
    = Returns (None, Some ErrOperationAndType)
              [{| flowcontrol.qps := S754_nan; flowcontrol.burst := 5 |}].
Proof. split_and!; vm_compute; reflexivity. Qed.
